(** * go-muxrpc: the packet transport (packer.go) and the session
      multiplexer (rpc.go), embedded as state-passing functions.

    Conventions of the embedding.
    - Go's [int32] is a [Z] kept in range by [wrap32]; [+] and unary [-]
      on request ids are [add32] and [neg32].
    - Go's [error] interface is [option error]: [None] is [nil].
    - [[]byte] is [list byte]; Go strings are [string].
    - Calls into collaborators that live outside rpc.go and packer.go
      (luigi pipes, the per-request Stream, the Handler, encoding/json)
      are answered by a record of oracles and appended to a log, so that
      what the session asked of them, and in which order, can be stated. *)

From Stdlib Require Import ZArith Lia List Bool String Ascii.
From Stdlib.Strings Require Import Byte.
From Equations Require Import Equations.
From Equations.Prop Require Import Logic.
From stdpp Require Import base option list gmap strings.

Local Open Scope Z_scope.
Local Set Warnings "-register-all".

(** ** Machine integers *)

Definition wrap32 (z : Z) : Z := (z + 2147483648) mod 4294967296 - 2147483648.
Definition min_int32 : Z := -2147483648.
Definition max_int32 : Z := 2147483647.
Definition in_int32 (z : Z) : Prop := min_int32 <= z <= max_int32.
Definition add32 (a b : Z) : Z := wrap32 (a + b).
Definition neg32 (a : Z) : Z := wrap32 (- a).

(** ** Errors: github.com/pkg/errors, io.EOF, luigi.EOS *)

Record CallError := mkCallError {
  Name : string;
  Message : string;
  Stack : string
}.

Inductive error :=
  | io_EOF
  | luigi_EOS
  | errors_New (msg : string)
  | errors_Errorf (format : string) (args : list string)
  | errors_Wrapped (cause : error) (msg : string)
  | call_error (e : CallError)
  | foreign_error (what : string).

(** The one-character string holding a double quote. *)
Definition dquote : string := String (ascii_of_nat 34) EmptyString.

(** [errors.Wrap] returns nil on a nil error. *)
Definition errors_Wrap (err : option error) (msg : string) : option error :=
  match err with
  | None => None
  | Some e => Some (errors_Wrapped e msg)
  end.

Fixpoint Cause (e : error) : error :=
  match e with
  | errors_Wrapped c _ => Cause c
  | _ => e
  end.

Definition errors_Cause (err : option error) : option error := Cause <$> err.

Definition is_io_EOF (err : option error) : bool :=
  match err with Some io_EOF => true | _ => false end.

Definition not_nil (err : option error) : bool :=
  match err with Some _ => true | None => false end.

Definition luigi_IsEOS (err : option error) : bool :=
  match errors_Cause err with Some luigi_EOS => true | _ => false end.

(** The [Error] method of [CallError]. *)
Definition CallError_Error (e : CallError) : string := Message e.

(** ** The codec's packets *)

Module codec.

(** Modelled from the spec: the codec package (Flag, Packet, Reader,
    Writer), whose source is not among the files embedded here. A Flag is
    a bitset over JSON, Stream and EndErr; [Set] ors a mask in, [Get]
    tests that every bit of the mask is present. *)
Definition Flag := Z.
Definition FlagString : Flag := 1.
Definition FlagJSON : Flag := 2.
Definition FlagEndErr : Flag := 4.
Definition FlagStream : Flag := 8.
Definition Flag_Set (f g : Flag) : Flag := Z.lor f g.
Definition Flag_Get (f g : Flag) : bool := Z.land f g =? g.

Record Packet := mkPacket {
  Flag_ : Flag;
  Req : Z;
  Body : list byte
}.

(** What one [ReadPacket] yields: a packet, or an error ([io_EOF] at the
    physical end of the connection). *)
Definition read_result := (Packet + error)%type.

(** A Reader is the finite sequence of results the connection still
    holds; past its end every read is a physical end-of-file. *)
Definition Reader := list read_result.

Definition ReadPacket (r : Reader) : Reader * read_result :=
  match r with
  | [] => ([], inr io_EOF)
  | x :: r' => (r', x)
  end.

(** A Writer answers each [WritePacket] from a script of outcomes (nil
    once the script is used up) and records what it was asked to write. *)
Record Writer := mkWriter {
  outcomes : list (option error);
  written : list Packet
}.

Definition WritePacket (w : Writer) (p : Packet) : Writer * option error :=
  match outcomes w with
  | [] => (mkWriter [] (written w ++ [p]), None)
  | o :: os => (mkWriter os (written w ++ [p]), o)
  end.

End codec.

Import codec.

(** ** packer.go *)

Module packer.

(** [closing] is the channel of the same name: [true] once it has been
    closed, which is all a non-blocking receive can observe. [closed]
    counts the calls of the underlying [io.Closer]. *)
Record t := mk {
  r : Reader;
  w : Writer;
  closing : bool;
  closed : nat
}.

(** What is handed to a sink: a [*codec.Packet] or a value of another
    dynamic type. *)
Inductive value :=
  | VPacket (p : Packet)
  | VOther (type_name : string).

Definition NewPacker (rd : Reader) (wr : Writer) : t := mk rd wr false 0.

Definition Next (pkr : t) : t * (Packet + error) :=
  let '(r', res) := ReadPacket (r pkr) in
  let pkr' := mk r' (w pkr) (closing pkr) (closed pkr) in
  let err := match res with inl _ => None | inr e => Some e end in
  if closing pkr && not_nil err then (pkr', inr luigi_EOS)
  else if is_io_EOF (errors_Cause err) then (pkr', inr luigi_EOS)
  else
    match res with
    | inr e => (pkr', inr (errors_Wrapped e "ReadPacket failed."))
    | inl pkt => (pkr', inl (mkPacket (Flag_ pkt) (neg32 (Req pkt)) (Body pkt)))
    end.

Definition Pour (pkr : t) (v : value) : t * option error :=
  match v with
  | VOther ty =>
      (pkr, Some (errors_Errorf "packer sink expected type *codec.Packet, got %T" [ty]))
  | VPacket pkt =>
      let '(w', err) := WritePacket (w pkr) pkt in
      let pkr' := mk (r pkr) w' (closing pkr) (closed pkr) in
      if closing pkr then (pkr', None) else (pkr', err)
  end.

(** [close(pkr.closing)] followed by [pkr.c.Close()], whose result comes
    from the connection. Closing a closed channel panics in Go; the
    result is [None] in that case. *)
Definition Close (pkr : t) (conn_result : option error) : option (t * option error) :=
  if closing pkr then None
  else Some (mk (r pkr) (w pkr) true (S (closed pkr)), conn_result).

End packer.

(** ** Requests, streams and the collaborators of the session *)

(** A luigi pipe, named by the order of its creation; [luigi.NewPipe]
    returns the two ends of one pipe, which share the name. *)
Definition pipe := nat.

(** [context.Context], as far as the session uses it: the time left
    before the deadline in nanoseconds, [None] when there is none. *)
Definition context := option Z.
Definition context_Background : context := None.
Definition context_WithTimeout (ctx : context) (d : Z) : context :=
  match ctx with
  | None => Some d
  | Some t => Some (Z.min t d)
  end.

(** JSON values, and the elements of [Args []interface{}]: a value that
    encoding/json can encode, or one that it cannot (a channel, a func). *)
Inductive json :=
  | JNull
  | JBool (b : bool)
  | JNumber (literal : string)
  | JString (s : string)
  | JArray (elems : list json)
  | JObject (members : list (string * json)).

Inductive arg :=
  | ArgJSON (j : json)
  | ArgOpaque (go_type : string).

(** Modelled from the spec: the Stream of stream.go, which is not among
    the files embedded here: built over a pipe's consumer handle and the
    shared transport, bound to an id, with the two direction switches
    given to [NewStream] and late binding of id and declared result type.
    The callers in rpc.go fix the reading of the switches: [Source], whose
    caller receives a stream, passes [true, false], and [Sink], whose
    caller sends one, passes [false, true]; so [st_inStream] is the
    direction from the remote to this session and [st_outStream] the
    direction from this session to the remote. A session has one
    transport, its own packer, so the handle to it that [NewStream] is
    given is not a field of the record. What a Stream does with that
    handle when it is read or closed happens in stream.go: the properties
    below speak of the transport's write side only for runs in which no
    Stream is read or closed. *)
Record Stream := mkStream {
  st_src : pipe;
  st_req : Z;
  st_inStream : bool;
  st_outStream : bool;
  st_tipe : option string
}.

Definition NewStream (src : pipe) (req : Z) (ins outs : bool) : Stream :=
  mkStream src req ins outs None.
Definition WithReq (s : Stream) (req : Z) : Stream :=
  mkStream (st_src s) req (st_inStream s) (st_outStream s) (st_tipe s).
Definition WithType (s : Stream) (tipe : option string) : Stream :=
  mkStream (st_src s) (st_req s) (st_inStream s) (st_outStream s) tipe.

(** The Request of request.go, with the fields rpc.go reads and writes.
    [Args = None] is the nil slice. *)
Record Request := mkRequest {
  Type_ : string;
  Stream_ : Stream;
  in_ : pipe;
  Method : list string;
  Args : option (list arg);
  tipe : option string;
  pkt : option Packet
}.

(** Modelled from the spec: [CallType.Flags] of request.go, which is not
    among the files embedded here: the stream flag unless the call is
    async. *)
Definition CallType_Flags (t : string) : Flag :=
  if String.eqb t "async" then 0 else FlagStream.

(** The JSON-tagged part of a Request, which is what decoding fills in. *)
Record Envelope := mkEnvelope {
  env_type : string;
  env_name : list string;
  env_args : option (list arg)
}.

(** Calls that leave rpc.go. *)
Inductive Call :=
  | Sink_Close (p : pipe)
  | Sink_CloseWithError (p : pipe) (e : CallError)
  | Sink_Pour (p : pipe) (ctx : context) (v : Packet)
  | Stream_Close (s : Stream)
  | Stream_Next (s : Stream) (ctx : context)
  | go_HandleCall (req : Request)
  | go_HandleConnect.

(** The collaborators: encoding/json on envelopes and error bodies, and
    the answers of pipes and streams, which may depend on everything the
    session has asked of them so far. *)
Record Collaborators := mkCollaborators {
  json_Marshal : Request -> list byte + error;
  json_Unmarshal_Request : list byte -> Envelope + error;
  json_Unmarshal_CallError : list byte -> CallError + error;
  answer : list Call -> Call -> option error;
  next_value : list Call -> Stream -> option json
}.

(** ** rpc.go *)

Record rpc := mkRpc {
  pkr : packer.t;
  reqs : gmap Z Request;
  highest : Z;
  terminated : bool
}.

(** The session together with the log of calls to collaborators and the
    number of pipes created so far. *)
Record state := mkState {
  session : rpc;
  calls : list Call;
  pipes : nat
}.

Definition bufSize : nat := 5.
Definition rxTimeout : Z := 1000000.

Definition with_session (st : state) (s : rpc) : state :=
  mkState s (calls st) (pipes st).
Definition with_pkr (s : rpc) (p : packer.t) : rpc :=
  mkRpc p (reqs s) (highest s) (terminated s).
Definition with_reqs (s : rpc) (m : gmap Z Request) : rpc :=
  mkRpc (pkr s) m (highest s) (terminated s).

Definition luigi_NewPipe (st : state) : state * pipe :=
  (mkState (session st) (calls st) (S (pipes st)), pipes st).

Definition spawn (st : state) (c : Call) : state :=
  mkState (session st) (calls st ++ [c]) (pipes st).

Inductive outcome :=
  | Continue
  | Return (err : option error).

(** [data[i]]; only evaluated behind the length test, as in the source,
    so the default is never read. *)
Definition index (data : list byte) (i : nat) : byte := nth i data x00.

Definition isTrue (data : list byte) : bool :=
  (length data =? 4)%nat &&
  Byte.eqb (index data 0) "t" &&
  Byte.eqb (index data 1) "r" &&
  Byte.eqb (index data 2) "u" &&
  Byte.eqb (index data 3) "e".

Section Session.

Variable X : Collaborators.

Definition ask (st : state) (c : Call) : state * option error :=
  (spawn st c, answer X (calls st) c).

Definition Handle (p : packer.t) : state :=
  spawn (mkState (mkRpc p ∅ 0 false) [] 0) go_HandleConnect.

Definition parseError (data : list byte) : CallError + error :=
  match json_Unmarshal_CallError X data with
  | inr err => inr (errors_Wrapped err "error unmarshaling error packet")
  | inl e =>
      if negb (String.eqb (Name e) "Error")
      then inr (errors_New ("name is not " ++ dquote ++ "Error" ++ dquote))
      else inl e
  end.

(** The locals of one call of [Do]: the request behind the pointer, and
    the variables [pkt] and [err]. *)
Record frame := mkFrame {
  f_req : Request;
  f_pkt : Packet;
  f_err : option error
}.

(** The statements of the closure that [Do] runs under [rLock], one
    definition per statement or group of statements. *)
Definition do_flags (fr : frame) : frame :=
  let p := f_pkt fr in
  let flag := Flag_Set (Flag_Set (Flag_ p) FlagJSON) (CallType_Flags (Type_ (f_req fr))) in
  mkFrame (f_req fr) (mkPacket flag (Req p) (Body p)) (f_err fr).

Definition do_marshal (fr : frame) : frame :=
  let p := f_pkt fr in
  match json_Marshal X (f_req fr) with
  | inl b => mkFrame (f_req fr) (mkPacket (Flag_ p) (Req p) b) None
  | inr e => mkFrame (f_req fr) (mkPacket (Flag_ p) (Req p) []) (Some e)
  end.

Definition do_alloc (s : rpc) (fr : frame) : frame :=
  let p := f_pkt fr in
  mkFrame (f_req fr) (mkPacket (Flag_ p) (add32 (highest s) 1) (Body p)) (f_err fr).

Definition do_count (s : rpc) (fr : frame) : rpc :=
  mkRpc (pkr s) (reqs s) (Req (f_pkt fr)) (terminated s).

Definition do_insert (s : rpc) (fr : frame) : rpc :=
  with_reqs s (<[Req (f_pkt fr) := f_req fr]> (reqs s)).

(** [WithReq], [WithType] and [req.pkt = &pkt] write through the request
    pointer, which the table holds as well since [do_insert]: the entry
    under the new id changes with the caller's request. *)
Definition bind (p : Packet) (req : Request) : Request :=
  mkRequest (Type_ req)
    (WithType (WithReq (Stream_ req) (Req p)) (tipe req))
    (in_ req) (Method req) (Args req) (tipe req) (Some p).

Definition do_bind (s : rpc) (fr : frame) : rpc * frame :=
  (with_reqs s (alter (bind (f_pkt fr)) (Req (f_pkt fr)) (reqs s)),
   mkFrame (bind (f_pkt fr) (f_req fr)) (f_pkt fr) (f_err fr)).

(** [if req.Args == nil { req.Args = []interface{}{} }] *)
Definition fill_Args (req : Request) : Request :=
  match Args req with
  | None => mkRequest (Type_ req) (Stream_ req) (in_ req) (Method req)
              (Some []) (tipe req) (pkt req)
  | Some _ => req
  end.

Definition do_enter (req : Request) : frame :=
  mkFrame (fill_Args req) (mkPacket 0 0 []) None.

Definition do_locked (s : rpc) (fr : frame) : rpc * frame :=
  let fr := do_marshal (do_flags fr) in
  let fr := do_alloc s fr in
  let s := do_count s fr in
  let s := do_insert s fr in
  do_bind s fr.

(** What follows the closure: report the encoding error, or send. *)
Definition do_send (s : rpc) (fr : frame) : rpc * option error :=
  match f_err fr with
  | Some e => (s, Some e)
  | None =>
      let '(pkr', e) := packer.Pour (pkr s) (packer.VPacket (f_pkt fr)) in
      (with_pkr s pkr', e)
  end.

(** [Do] returns, next to the error, the request as the caller sees it
    afterwards: Go mutates it through the pointer. *)
Definition Do (st : state) (req : Request) : state * Request * option error :=
  let '(s1, fr) := do_locked (session st) (do_enter req) in
  let '(s2, err) := do_send s1 fr in
  (with_session st s2, f_req fr, err).

(** The packet [Do] builds for a request, given the id it allocates. *)
Definition call_packet (req : Request) (id : Z) : Packet :=
  mkPacket (Flag_Set (Flag_Set 0 FlagJSON) (CallType_Flags (Type_ (fill_Args req)))) id
    match json_Marshal X (fill_Args req) with inl b => b | inr _ => [] end.

Definition ParseRequest (st : state) (p : Packet) : state * (Request + error) :=
  if negb (Flag_Get (Flag_ p) FlagJSON)
  then (st, inr (errors_New "expected JSON flag"))
  else if Req p >=? 0
  then (st, inr (errors_New "expected negative request id"))
  else
    match json_Unmarshal_Request X (Body p) with
    | inr err => (st, inr (errors_Wrapped err "error decoding packet"))
    | inl env =>
        let '(st1, pp) := luigi_NewPipe st in
        let build (inStream outStream : bool) :=
          (st1, inl (mkRequest (env_type env)
                       (NewStream pp (Req p) inStream outStream)
                       pp (env_name env) (env_args env) None (Some p))) in
        if Flag_Get (Flag_ p) FlagStream then
          if String.eqb (env_type env) "duplex" then build true true
          else if String.eqb (env_type env) "source" then build false true
          else if String.eqb (env_type env) "sink" then build true false
          else (st1, inr (errors_Errorf "unhandled request type: %q" [env_type env]))
        else build false false
    end.

Definition fetchRequest (st : state) (p : Packet)
  : state * (Request * bool + error) :=
  match reqs (session st) !! Req p with
  | Some req => (st, inl (req, false))
  | None =>
      match ParseRequest st p with
      | (st1, inr err) => (st1, inr (errors_Wrapped err "error parsing request"))
      | (st1, inl req) =>
          let s := session st1 in
          let st2 := with_session st1 (with_reqs s (<[Req p := req]> (reqs s))) in
          (spawn st2 (go_HandleCall req), inl (req, true))
      end
  end.

End Session.

Section Serving.

Variable X : Collaborators.

Definition delete_req (st : state) (id : Z) : state :=
  let s := session st in
  with_session st (with_reqs s (delete id (reqs s))).

(** Modelled from the spec: [newEndOkayPacket], which is not among the
    files embedded here: a clean termination packet is flagged EndErr and
    carries the body [true]. *)
Definition newEndOkayPacket (req : Z) : Packet :=
  mkPacket (Flag_Set (Flag_Set FlagJSON FlagEndErr) FlagStream) req
    (list_byte_of_string "true").

Definition finish (st : state) (req : Z) : state * option error :=
  let st1 := delete_req st req in
  let '(pkr', err) := packer.Pour (pkr (session st1)) (packer.VPacket (newEndOkayPacket req)) in
  (with_session st1 (with_pkr (session st1) pkr'),
   errors_Wrap err "error pouring done message").

(** [Terminate]; [None] is the panic of closing the closed channel. *)
Definition Terminate (st : state) (conn_result : option error)
  : option (state * option error) :=
  let s := session st in
  let s1 := mkRpc (pkr s) (reqs s) (highest s) true in
  match packer.Close (pkr s1) conn_result with
  | None => None
  | Some (pkr', err) => Some (with_session st (with_pkr s1 pkr'), err)
  end.

(** The first closure of the loop body: read the next packet and decide
    whether [Serve] returns. *)
Definition serve_read (st : state) : state * (Packet + option error) :=
  let s := session st in
  let '(pkr', res) := packer.Next (pkr s) in
  let st' := with_session st (with_pkr s pkr') in
  match res with
  | inl p => (st', inl p)
  | inr err =>
      if luigi_IsEOS (Some err) then (st', inr None)
      else if terminated s then (st', inr None)
      else (st', inr (Some (errors_Wrapped err "error reading from packer source")))
  end.

(** The closure run for an EndErr packet whose id is in the table. *)
Definition serve_close (st : state) (p : Packet) (req : Request)
  : state * option error :=
  let '(st', err) :=
    if isTrue (Body p) then
      let '(st1, err) := ask X st (Sink_Close (in_ req)) in
      match err with
      | Some e => (st1, Some (errors_Wrapped e "error closing pipe sink"))
      | None =>
          let '(st2, err) := ask X st1 (Stream_Close (Stream_ req)) in
          (st2, errors_Wrap err "error closing stream")
      end
    else
      match parseError X (Body p) with
      | inr err => (st, Some (errors_Wrapped err "error parsing error packet"))
      | inl e =>
          let '(st1, err) := ask X st (Sink_CloseWithError (in_ req) e) in
          (st1, errors_Wrap err "error closing pipe sink with error")
      end in
  match err with
  | Some e => (st', Some e)
  | None => (delete_req st' (Req p), None)
  end.

(** The rest of the loop body, from [fetchRequest] on. *)
Definition serve_deliver (ctx : context) (st : state) (p : Packet)
  : state * outcome :=
  match fetchRequest X st p with
  | (st1, inr err) => (st1, Return (Some (errors_Wrapped err "error getting request")))
  | (st1, inl (req, isNew)) =>
      if isNew then (st1, Continue)
      else
        let ctx' := context_WithTimeout ctx rxTimeout in
        let '(st2, err) := ask X st1 (Sink_Pour (in_ req) ctx' p) in
        match errors_Wrap err "error pouring data to handler" with
        | Some e => (st2, Return (Some e))
        | None => (st2, Continue)
        end
  end.

(** The loop body after a packet has been read. *)
Definition serve_packet (ctx : context) (st : state) (p : Packet)
  : state * outcome :=
  if Flag_Get (Flag_ p) FlagEndErr then
    match reqs (session st) !! Req p with
    | Some req =>
        match serve_close st p req with
        | (st', Some e) => (st', Return (Some e))
        | (st', None) => (st', Continue)
        end
    | None => serve_deliver ctx st p
    end
  else serve_deliver ctx st p.

(** One turn of the loop. *)
Definition serve_turn (ctx : context) (st : state) : state * outcome :=
  match serve_read st with
  | (st', inr err) => (st', Return err)
  | (st', inl p) => serve_packet ctx st' p
  end.

(** Packets the connection still holds. *)
Definition pending (st : state) : nat := length (packer.r (pkr (session st))).

(** [Serve]: turns of the loop until one returns. Every turn that goes on
    has taken a packet off the connection, which is what the recursion
    descends on. *)
Equations? Serve (ctx : context) (st : state) : state * option error
  by wf (pending st) lt :=
  Serve ctx st with inspect (serve_turn ctx st) := {
    | exist _ (st', Return err) _ => (st', err)
    | exist _ (st', Continue) H => Serve ctx st' }.
Proof.
  clear Serve.
  assert (Hkeep : forall p st0 st1 o,
             serve_packet ctx st0 p = (st1, o) -> pending st1 = pending st0).
  { intros p st0 st1 o. unfold serve_packet, serve_close, serve_deliver,
      fetchRequest, ParseRequest, ask, spawn, delete_req, luigi_NewPipe,
      with_session, with_reqs, errors_Wrap, pending.
    repeat case_match; intros; simplify_eq; reflexivity. }
  unfold serve_turn, serve_read, packer.Next, ReadPacket in H.
  destruct st as [[[rd w c k] rq h t] cl np]; simpl in *.
  destruct rd as [|x rd]; simpl in *.
  - destruct c; simpl in *; discriminate.
  - repeat case_match; simplify_eq;
      match goal with
      | Hp : serve_packet _ _ _ = _ |- _ =>
          apply Hkeep in Hp; unfold pending in *; simpl in *; lia
      end.
Qed.

End Serving.

(** The four call shapes. [tipe] is the declared result shape. *)
Section Calls.

Variable X : Collaborators.

Definition call_request (t : string) (ins outs : bool) (p : pipe)
    (tipe : option string) (method : list string) (args : option (list arg))
  : Request :=
  mkRequest t (NewStream p 0 ins outs) p method args tipe None.





End Calls.

(** ** A concrete encoding/json for envelopes and error bodies

    The session is stated over any [Collaborators]. To run it on packets,
    this module gives one: a reader and a printer for JSON texts and the
    way encoding/json fills a Request or a CallError from them. Escapes
    written with [\u] are outside the fragment read here and are reported
    as a decoding error; object keys are matched to fields up to ASCII
    case, as encoding/json does for these field names. *)
Module JSON.

Local Open Scope char_scope.

Definition code (c : ascii) : N := N_of_ascii c.

Definition is_space (c : ascii) : bool :=
  (code c =? 32)%N || (code c =? 9)%N || (code c =? 10)%N || (code c =? 13)%N.

Definition is_digit (c : ascii) : bool :=
  (48 <=? code c)%N && (code c <=? 57)%N.

Definition quote : ascii := ascii_of_nat 34.
Definition backslash : ascii := ascii_of_nat 92.

Fixpoint skip_space (s : string) : string :=
  match s with
  | String c s' => if is_space c then skip_space s' else s
  | EmptyString => s
  end.

(** The longest prefix of digits, and what follows it. *)
Fixpoint digits (s : string) : string * string :=
  match s with
  | String c s' =>
      if is_digit c then let '(d, rest) := digits s' in (String c d, rest)
      else (EmptyString, s)
  | EmptyString => (EmptyString, EmptyString)
  end.

(** [strip p s] is what follows the prefix [p] of [s]. *)
Fixpoint strip (p s : string) : option string :=
  match p, s with
  | EmptyString, _ => Some s
  | String a p', String b s' => if Ascii.eqb a b then strip p' s' else None
  | String _ _, EmptyString => None
  end.

Definition fraction (s : string) : option (string * string) :=
  match s with
  | String "." s' =>
      match digits s' with
      | (EmptyString, _) => None
      | (d, rest) => Some (String "." d, rest)
      end
  | _ => Some (EmptyString, s)
  end.

Definition exponent (s : string) : option (string * string) :=
  match s with
  | String c s' =>
      if Ascii.eqb c "e" || Ascii.eqb c "E" then
        let '(sign, s'') :=
          match s' with
          | String "+" r => (String "+" EmptyString, r)
          | String "-" r => (String "-" EmptyString, r)
          | _ => (EmptyString, s')
          end in
        match digits s'' with
        | (EmptyString, _) => None
        | (d, rest) => Some (String c (sign ++ d)%string, rest)
        end
      else Some (EmptyString, s)
  | EmptyString => Some (EmptyString, s)
  end.

Definition number (s : string) : option (string * string) :=
  let '(sign, s1) :=
    match s with
    | String "-" r => (String "-" EmptyString, r)
    | _ => (EmptyString, s)
    end in
  match digits s1 with
  | (EmptyString, _) => None
  | (String "0" (String _ _), _) => None
  | (int, s2) =>
      match fraction s2 with
      | None => None
      | Some (frac, s3) =>
          match exponent s3 with
          | None => None
          | Some (ex, s4) => Some ((sign ++ int ++ frac ++ ex)%string, s4)
          end
      end
  end.

Definition unescape (c : ascii) : option ascii :=
  if Ascii.eqb c quote then Some quote
  else if Ascii.eqb c backslash then Some backslash
  else if Ascii.eqb c "/" then Some "/"
  else if Ascii.eqb c "b" then Some (ascii_of_nat 8)
  else if Ascii.eqb c "f" then Some (ascii_of_nat 12)
  else if Ascii.eqb c "n" then Some (ascii_of_nat 10)
  else if Ascii.eqb c "r" then Some (ascii_of_nat 13)
  else if Ascii.eqb c "t" then Some (ascii_of_nat 9)
  else None.

(** The characters of a string literal after its opening quote. *)
Fixpoint chars (s : string) : option (string * string) :=
  match s with
  | EmptyString => None
  | String c s' =>
      if Ascii.eqb c quote then Some (EmptyString, s')
      else if Ascii.eqb c backslash then
        match s' with
        | EmptyString => None
        | String e s'' =>
            match unescape e, chars s'' with
            | Some c', Some (t, rest) => Some (String c' t, rest)
            | _, _ => None
            end
        end
      else if (code c <? 32)%N then None
      else
        match chars s' with
        | Some (t, rest) => Some (String c t, rest)
        | None => None
        end
  end.

Fixpoint value (fuel : nat) (s : string) : option (json * string) :=
  match fuel with
  | O => None
  | S fuel =>
      match skip_space s with
      | EmptyString => None
      | String c s' =>
          if Ascii.eqb c "n" then (fun r => (JNull, r)) <$> strip "ull" s'
          else if Ascii.eqb c "t" then (fun r => (JBool true, r)) <$> strip "rue" s'
          else if Ascii.eqb c "f" then (fun r => (JBool false, r)) <$> strip "alse" s'
          else if Ascii.eqb c quote then
            (fun '(t, r) => (JString t, r)) <$> chars s'
          else if Ascii.eqb c "[" then
            match skip_space s' with
            | String "]" r => Some (JArray [], r)
            | _ => (fun '(vs, r) => (JArray vs, r)) <$> elements fuel s'
            end
          else if Ascii.eqb c "{" then
            match skip_space s' with
            | String "}" r => Some (JObject [], r)
            | _ => (fun '(ms, r) => (JObject ms, r)) <$> members fuel s'
            end
          else (fun '(n, r) => (JNumber n, r)) <$> number (String c s')
      end
  end
with elements (fuel : nat) (s : string) : option (list json * string) :=
  match fuel with
  | O => None
  | S fuel =>
      match value fuel s with
      | None => None
      | Some (v, r) =>
          match skip_space r with
          | String "," r' => (fun '(vs, r'') => (v :: vs, r'')) <$> elements fuel r'
          | String "]" r' => Some ([v], r')
          | _ => None
          end
      end
  end
with members (fuel : nat) (s : string) : option (list (string * json) * string) :=
  match fuel with
  | O => None
  | S fuel =>
      match skip_space s with
      | String c s' =>
          if Ascii.eqb c quote then
            match chars s' with
            | None => None
            | Some (k, r) =>
                match skip_space r with
                | String ":" r' =>
                    match value fuel r' with
                    | None => None
                    | Some (v, r'') =>
                        match skip_space r'' with
                        | String "," r3 =>
                            (fun '(ms, r4) => ((k, v) :: ms, r4)) <$> members fuel r3
                        | String "}" r3 => Some ([(k, v)], r3)
                        | _ => None
                        end
                    end
                | _ => None
                end
            end
          else None
      | EmptyString => None
      end
  end.

(** A whole text: one value and nothing but space after it. *)
Definition parse (data : list byte) : option json :=
  let s := string_of_list_byte data in
  match value (2 * String.length s + 2) s with
  | Some (v, rest) =>
      match skip_space rest with
      | EmptyString => Some v
      | _ => None
      end
  | None => None
  end.

Definition lower (c : ascii) : ascii :=
  if (65 <=? code c)%N && (code c <=? 90)%N then ascii_of_N (code c + 32) else c.

Fixpoint fold_case (s : string) : string :=
  match s with
  | EmptyString => EmptyString
  | String c s' => String (lower c) (fold_case s')
  end.

Definition same_key (a b : string) : bool :=
  String.eqb (fold_case a) (fold_case b).

(** The elements of a JSON array read into a [[]string]: a null leaves
    the zero value. *)
Fixpoint strings_of (l : list json) : option (list string) :=
  match l with
  | [] => Some []
  | JString t :: l' => (fun ts => t :: ts) <$> strings_of l'
  | JNull :: l' => (fun ts => EmptyString :: ts) <$> strings_of l'
  | _ :: _ => None
  end.

Definition set_envelope_field (env : Envelope) (k : string) (v : json)
  : option Envelope :=
  if same_key k "type" then
    match v with
    | JString t => Some (mkEnvelope t (env_name env) (env_args env))
    | JNull => Some env
    | _ => None
    end
  else if same_key k "name" then
    match v with
    | JArray l => (fun ts => mkEnvelope (env_type env) ts (env_args env)) <$> strings_of l
    | JNull => Some (mkEnvelope (env_type env) [] (env_args env))
    | _ => None
    end
  else if same_key k "args" then
    match v with
    | JArray l => Some (mkEnvelope (env_type env) (env_name env) (Some (ArgJSON <$> l)))
    | JNull => Some (mkEnvelope (env_type env) (env_name env) None)
    | _ => None
    end
  else Some env.

Definition set_error_field (e : CallError) (k : string) (v : json)
  : option CallError :=
  let put (f : string -> CallError) :=
    match v with
    | JString t => Some (f t)
    | JNull => Some e
    | _ => None
    end in
  if same_key k "name" then put (fun t => mkCallError t (Message e) (Stack e))
  else if same_key k "message" then put (fun t => mkCallError (Name e) t (Stack e))
  else if same_key k "stack" then put (fun t => mkCallError (Name e) (Message e) t)
  else Some e.

(** [json.Unmarshal] into a zero struct: members are applied in order
    (a later duplicate wins), unknown keys are skipped, [null] leaves the
    struct as it is, and any other text that is not an object is a type
    error. *)
Definition unmarshal {A} (zero : A) (set : A -> string -> json -> option A)
    (data : list byte) : A + error :=
  match parse data with
  | None => inr (foreign_error "json: syntax error")
  | Some JNull => inl zero
  | Some (JObject ms) =>
      match foldl (fun acc '(k, v) => acc ≫= fun a => set a k v) (Some zero) ms with
      | Some a => inl a
      | None => inr (foreign_error "json: cannot unmarshal value into Go struct field")
      end
  | Some _ => inr (foreign_error "json: cannot unmarshal value into Go struct")
  end.

Definition Unmarshal_Request : list byte -> Envelope + error :=
  unmarshal (mkEnvelope EmptyString [] None) set_envelope_field.

Definition Unmarshal_CallError : list byte -> CallError + error :=
  unmarshal (mkCallError EmptyString EmptyString EmptyString) set_error_field.

(** Printing. Inside a string literal the quote and the backslash are
    escaped. *)
Fixpoint escape (s : string) : string :=
  match s with
  | EmptyString => EmptyString
  | String c s' =>
      if Ascii.eqb c quote || Ascii.eqb c backslash
      then String backslash (String c (escape s'))
      else String c (escape s')
  end.

Definition print_string (s : string) : string :=
  String quote (escape s ++ String quote EmptyString)%string.

Fixpoint sep_by_comma (l : list string) : string :=
  match l with
  | [] => EmptyString
  | x :: l' =>
      match l' with
      | [] => x
      | _ :: _ => (x ++ String "," (sep_by_comma l'))%string
      end
  end.

Fixpoint print (j : json) : string :=
  match j with
  | JNull => "null"%string
  | JBool true => "true"%string
  | JBool false => "false"%string
  | JNumber n => n
  | JString t => print_string t
  | JArray l => (String "[" (sep_by_comma (map print l)) ++ String "]" EmptyString)%string
  | JObject ms =>
      (String "{"
         (sep_by_comma
            (map (fun m => (print_string (fst m) ++ String ":" (print (snd m)))%string) ms))
       ++ String "}" EmptyString)%string
  end.

Fixpoint encodable (args : list arg) : list json + string :=
  match args with
  | [] => inl []
  | ArgOpaque t :: _ => inr t
  | ArgJSON j :: args' =>
      match encodable args' with
      | inl js => inl (j :: js)
      | inr t => inr t
      end
  end.

(** Modelled from the spec: the JSON tags of Request are in request.go,
    which is not among the files embedded here; the envelope has the
    members type, name and args. A nil [Args] is printed as null. An
    argument without a JSON form makes the encoding fail. *)
Definition Marshal_Request (req : Request) : list byte + error :=
  match
    match Args req with
    | None => inl JNull
    | Some args =>
        match encodable args with
        | inl js => inl (JArray js)
        | inr t => inr t
        end
    end
  with
  | inr t => inr (foreign_error ("json: unsupported type: " ++ t))
  | inl args =>
      inl (list_byte_of_string
             (print (JObject [("type"%string, JString (Type_ req));
                              ("name"%string, JArray (JString <$> Method req));
                              ("args"%string, args)])))
  end.

End JSON.

(** Collaborators whose pipes and streams accept every call. *)
Definition willing : Collaborators :=
  mkCollaborators JSON.Marshal_Request JSON.Unmarshal_Request JSON.Unmarshal_CallError
    (fun _ _ => None) (fun _ _ => None).

Definition context_DeadlineExceeded : error :=
  foreign_error "context deadline exceeded".

(** Collaborators whose pipes never take a value before the deadline of
    the context they are given. *)
Definition stalled : Collaborators :=
  mkCollaborators JSON.Marshal_Request JSON.Unmarshal_Request JSON.Unmarshal_CallError
    (fun _ c => match c with
                | Sink_Pour _ (Some _) _ => Some context_DeadlineExceeded
                | _ => None
                end)
    (fun _ _ => None).

Definition pipe_closed : error := foreign_error "pipe closed".

(** Collaborators whose pipes report a failure when they are closed. *)
Definition jammed : Collaborators :=
  mkCollaborators JSON.Marshal_Request JSON.Unmarshal_Request JSON.Unmarshal_CallError
    (fun _ c => match c with
                | Sink_Close _ => Some pipe_closed
                | _ => None
                end)
    (fun _ _ => None).

(** ** Concurrent calls of [Do]

    Goroutines that run [Do] on one session, interleaved statement by
    statement. [rLock] is a [sync.Mutex]: [Lock] blocks while it is held.
    The configuration also keeps, as a ghost, the ids in the order in which
    line 185 assigned them. *)
Module Interleaving.

(** Where a goroutine stands in [Do], by the statement of rpc.go it runs
    next: [r.rLock.Lock()] (line 177), the flags and [json.Marshal]
    (180 to 183), [pkt.Req = r.highest + 1] (185), [r.highest = pkt.Req]
    (186), [r.reqs[pkt.Req] = req] (187), the bindings (188 to 191), the
    deferred [Unlock], the error test and [Pour] after the closure (193
    to 197), or the result once it has returned. *)
Inductive pc :=
  | AtLock
  | AtMarshal
  | AtAlloc
  | AtCount
  | AtInsert
  | AtBind
  | AtUnlock
  | AtSend
  | Finished (err : option error).

Record thread := mkThread {
  t_pc : pc;
  t_frame : frame
}.

Record conf := mkConf {
  c_session : rpc;
  c_rLock : bool;
  c_allocs : list Z;
  c_threads : list thread
}.

Definition start (s : rpc) (requests : list Request) : conf :=
  mkConf s false [] ((fun req => mkThread AtLock (do_enter req)) <$> requests).

(** One statement of goroutine [i]; [None] when it cannot move (blocked
    on the mutex, finished, or no such goroutine). *)
Definition step (X : Collaborators) (i : nat) (c : conf) : option conf :=
  match c_threads c !! i with
  | None => None
  | Some t =>
      let s := c_session c in
      let fr := t_frame t in
      let put s' lk al p' fr' :=
        Some (mkConf s' lk al (<[i := mkThread p' fr']> (c_threads c))) in
      match t_pc t with
      | AtLock =>
          if c_rLock c then None
          else put s true (c_allocs c) AtMarshal fr
      | AtMarshal =>
          put s (c_rLock c) (c_allocs c) AtAlloc (do_marshal X (do_flags fr))
      | AtAlloc =>
          let fr' := do_alloc s fr in
          put s (c_rLock c) (c_allocs c ++ [Req (f_pkt fr')]) AtCount fr'
      | AtCount =>
          put (do_count s fr) (c_rLock c) (c_allocs c) AtInsert fr
      | AtInsert =>
          put (do_insert s fr) (c_rLock c) (c_allocs c) AtBind fr
      | AtBind =>
          let '(s', fr') := do_bind s fr in
          put s' (c_rLock c) (c_allocs c) AtUnlock fr'
      | AtUnlock =>
          put s false (c_allocs c) AtSend fr
      | AtSend =>
          let '(s', err) := do_send s fr in
          put s' (c_rLock c) (c_allocs c) (Finished err) fr
      | Finished _ => None
      end
  end.

(** A schedule names the goroutine to run next; naming one that cannot
    move leaves the configuration as it is. *)
Fixpoint run (X : Collaborators) (schedule : list nat) (c : conf) : conf :=
  match schedule with
  | [] => c
  | i :: rest => run X rest (default c (step X i c))
  end.

(** The goroutine holds [rLock]. *)
Definition critical (p : pc) : bool :=
  match p with
  | AtMarshal | AtAlloc | AtCount | AtInsert | AtBind | AtUnlock => true
  | _ => false
  end.

(** Line 185 has run but line 187 has not. *)
Definition uninserted (p : pc) : bool :=
  match p with
  | AtCount | AtInsert => true
  | _ => false
  end.

(** Line 185 has not run yet. *)
Definition unallocated (p : pc) : bool :=
  match p with
  | AtLock | AtMarshal | AtAlloc => true
  | _ => false
  end.

(** Weights for counting goroutines: line 185 still ahead, and line
    186 next. *)
Definition todo (t : thread) : nat := if unallocated (t_pc t) then 1 else 0.
Definition counting (t : thread) : nat :=
  match t_pc t with AtCount => 1 | _ => 0 end.

(** What holds of every configuration that goroutines running [Do]
    can reach from a session whose counter is [h0]. *)
Record Inv (h0 : Z) (c : conf) : Prop := mkInv {
  inv_log : c_allocs c = seqZ (h0 + 1) (Z.of_nat (length (c_allocs c)));
  inv_budget :
    (length (c_allocs c) + sum_list_with todo (c_threads c)
     = length (c_threads c))%nat;
  inv_sum :
    highest (c_session c) + Z.of_nat (sum_list_with counting (c_threads c))
    = h0 + Z.of_nat (length (c_allocs c));
  inv_lock : forall i t,
    c_threads c !! i = Some t -> critical (t_pc t) = true -> c_rLock c = true;
  inv_excl : forall i j ti tj,
    c_threads c !! i = Some ti -> c_threads c !! j = Some tj ->
    critical (t_pc ti) = true -> critical (t_pc tj) = true -> i = j;
  inv_count : forall i t,
    c_threads c !! i = Some t -> t_pc t = AtCount ->
    Req (f_pkt (t_frame t)) = highest (c_session c) + 1;
  inv_table : forall id,
    id ∈ c_allocs c ->
    is_Some (reqs (c_session c) !! id) \/
    exists i t, c_threads c !! i = Some t /\ uninserted (t_pc t) = true /\
                Req (f_pkt (t_frame t)) = id
}.

End Interleaving.

(** The ids that successive calls of [Do] allocate, and the session they
    leave. *)
Fixpoint Do_all (X : Collaborators) (st : state) (requests : list Request)
  : state * list Z :=
  match requests with
  | [] => (st, [])
  | req :: rest =>
      let '(st1, req', _) := Do X st req in
      let '(st2, ids) := Do_all X st1 rest in
      (st2, st_req (Stream_ req') :: ids)
  end.

(** The session after [n] calls of [Do] with the same request. *)
Definition Do_times (X : Collaborators) (n : N) (req : Request) (st : state) : state :=
  N.iter n (fun st => (Do X st req).1.1) st.

(** ** Sessions and packets to run the model on *)

(** The bytes of a JSON text. *)
Definition text (j : json) : list byte := list_byte_of_string (JSON.print j).

Definition error_body (name message : string) : list byte :=
  text (JObject [("name"%string, JString name); ("message"%string, JString message);
                 ("stack"%string, JString "at remote")]).

Definition envelope_body (type : string) (method : list string) : list byte :=
  text (JObject [("type"%string, JString type);
                 ("name"%string, JArray (JString <$> method));
                 ("args"%string, JArray [])]).

Definition fresh : state := Handle (packer.NewPacker [] (mkWriter [] [])).

(** An async call of the method whoami, as [Async] builds it over
    pipe 0. *)
Definition whoami : Request :=
  call_request "async" false false 0%nat None ["whoami"%string] None.

(** A session that has issued [whoami], which got id 1, and whose
    connection still holds the packets [rd]. *)
Definition outstanding (X : Collaborators) (rd : Reader) : state :=
  (Do X (Handle (packer.NewPacker rd (mkWriter [] []))) whoami).1.1.

(** The remote's packets for call 1 as they are on the wire, tagged with
    the negation of the id: the clean termination, and a reply. *)
Definition wire_end : read_result := inl (newEndOkayPacket (-1)).
Definition wire_reply : read_result :=
  inl (mkPacket FlagJSON (-1) (text (JString "alice"))).

(** The remote ends call 1 with an error, as it is on the wire. *)
Definition wire_error (name message : string) : read_result :=
  inl (mkPacket (Flag_Set (Flag_Set FlagJSON FlagEndErr) FlagStream) (-1)
         (error_body name message)).

(** ** Well-formed tables

    Ids in use never lie above the counter: the ids [Do] has given are at
    most [highest], and the ids of calls the remote opened are negative. *)
Definition ids_below_counter (s : rpc) : Prop :=
  0 <= highest s <= max_int32 /\
  forall id, is_Some (reqs s !! id) -> id <= highest s.

(** The type and the two direction switches that [Async], [Source],
    [Sink] and [Duplex] give to the request they build. *)
Definition call_shapes : list (string * bool * bool) :=
  [("async"%string, false, false); ("source"%string, true, false);
   ("sink"%string, false, true); ("duplex"%string, true, true)].

(** [rLock] is only ever found held by a goroutine that is inside the
    closure of [Do]. *)
Definition lock_has_holder (c : Interleaving.conf) : Prop :=
  Interleaving.c_rLock c = true ->
  exists i t, Interleaving.c_threads c !! i = Some t /\
              Interleaving.critical (Interleaving.t_pc t) = true.

(** A read error that is neither an end-of-file nor an end-of-stream. *)
Definition connection_reset : error := foreign_error "connection reset by peer".

(** The first packet of a source call opened by the remote, as it is on
    the wire (the remote's id 1) and as [Next] hands it on (id -1). *)
Definition wire_source_call : Packet :=
  mkPacket (Flag_Set FlagJSON FlagStream) 1 (envelope_body "source" ["log"%string]).
Definition source_call : Packet :=
  mkPacket (Flag_Set FlagJSON FlagStream) (-1) (envelope_body "source" ["log"%string]).

(** A fresh session whose connection holds the packets [rd]. *)
Definition listening (rd : Reader) : state :=
  Handle (packer.NewPacker rd (mkWriter [] [])).

(** The packet [Next] makes of a wire packet. *)
Definition flipped (wire : Packet) : Packet :=
  mkPacket (Flag_ wire) (neg32 (Req wire)) (Body wire).

(** Reading or closing a Stream, the one collaborator of the loop that
    holds the session's transport; pipes live in memory. *)
Definition through_stream (c : Call) : bool :=
  match c with
  | Stream_Close _ | Stream_Next _ _ => true
  | _ => false
  end.

(** * Properties *)

(** ** Machine integers *)

Lemma wrap32_id z : in_int32 z -> wrap32 z = z.
Proof.
  unfold in_int32, min_int32, max_int32, wrap32. intros Hz.
  rewrite Z.mod_small by lia. lia.
Qed.

Lemma wrap32_range z : in_int32 (wrap32 z).
Proof.
  unfold in_int32, min_int32, max_int32, wrap32.
  pose proof (Z.mod_pos_bound (z + 2147483648) 4294967296 ltac:(lia)). lia.
Qed.

Lemma add32_succ h : in_int32 h -> h < max_int32 -> add32 h 1 = h + 1.
Proof.
  unfold in_int32, min_int32, max_int32. intros Hh Hlt.
  unfold add32. apply wrap32_id. unfold in_int32, min_int32, max_int32. lia.
Qed.

Lemma add32_overflow : add32 max_int32 1 = min_int32.
Proof. reflexivity. Qed.

Lemma neg32_opp z : in_int32 z -> z <> min_int32 -> neg32 z = - z.
Proof.
  unfold in_int32, min_int32, max_int32. intros Hz Hne.
  unfold neg32. apply wrap32_id. unfold in_int32, min_int32, max_int32. lia.
Qed.

Lemma neg32_min : neg32 min_int32 = min_int32.
Proof. reflexivity. Qed.

(** ** Errors *)

Lemma errors_Wrap_nil msg : errors_Wrap None msg = None.
Proof. reflexivity. Qed.

Lemma errors_Wrap_Cause e msg :
  errors_Cause (errors_Wrap (Some e) msg) = Some (Cause e).
Proof. reflexivity. Qed.

Lemma isTrue_iff data : isTrue data = true <-> data = list_byte_of_string "true".
Proof.
  split.
  - unfold isTrue, index. intros H.
    repeat (apply andb_prop in H; destruct H as [H ?]).
    destruct data as [|a [|b [|c [|d [|? ?]]]]]; try discriminate; simpl in *.
    repeat match goal with
           | E : Byte.eqb _ _ = true |- _ => apply Byte.byte_dec_bl in E; subst
           end.
    reflexivity.
  - intros ->. reflexivity.
Qed.

(** ** The transport *)

Section Transport.

Import packer.

Lemma Next_reader pkr : r (Next pkr).1 = tail (r pkr).
Proof.
  unfold Next, ReadPacket. destruct (r pkr) as [|[p|e] rd]; simpl;
    repeat case_match; reflexivity.
Qed.

Lemma Next_rest pkr :
  w (Next pkr).1 = w pkr /\ closing (Next pkr).1 = closing pkr /\
  closed (Next pkr).1 = closed pkr.
Proof.
  unfold Next, ReadPacket. destruct (r pkr) as [|[p|e] rd]; simpl;
    repeat case_match; auto.
Qed.

End Transport.

(** C5. [Next] turns a physical end-of-file into the end-of-stream
    sentinel; any other read error comes back as an error (wrapping the
    read error) unless the packer is closing, in which case [Next] gives
    the end-of-stream sentinel; and [Pour], given a packet, gives nil
    whatever the write did when the packer is closing, and the result of
    the write otherwise. *)
Theorem transport_errors_and_closing (pkr : packer.t) (e : error) (p : Packet) :
  ((ReadPacket (packer.r pkr)).2 = inr e -> Cause e = io_EOF ->
     (packer.Next pkr).2 = inr luigi_EOS) /\
  ((ReadPacket (packer.r pkr)).2 = inr e -> Cause e <> io_EOF ->
     packer.closing pkr = false ->
     (packer.Next pkr).2 = inr (errors_Wrapped e "ReadPacket failed.")) /\
  ((ReadPacket (packer.r pkr)).2 = inr e -> packer.closing pkr = true ->
     (packer.Next pkr).2 = inr luigi_EOS) /\
  (packer.closing pkr = true ->
     (packer.Pour pkr (packer.VPacket p)).2 = None) /\
  (packer.closing pkr = false ->
     (packer.Pour pkr (packer.VPacket p)).2 = (WritePacket (packer.w pkr) p).2).
Proof.
  unfold packer.Next, packer.Pour.
  destruct (ReadPacket (packer.r pkr)) as [rd res] eqn:Hrd.
  destruct (WritePacket (packer.w pkr) p) as [w' werr] eqn:Hw.
  simpl. split_and!.
  - intros -> Hc. simpl. rewrite Hc.
    destruct (packer.closing pkr); reflexivity.
  - intros -> Hc ->. simpl.
    destruct (Cause e) eqn:Hce; try reflexivity. congruence.
  - intros -> ->. reflexivity.
  - intros ->. reflexivity.
  - intros ->. reflexivity.
Qed.

Lemma transport_errors_and_closing_witness :
  let broken := foreign_error "connection reset by peer" in
  let pkt := mkPacket FlagJSON 1 [] in
  let wr := mkWriter [Some broken] [] in
  let at_eof := packer.mk [inr io_EOF] wr false 0 in
  let failing := packer.mk [inr broken] wr false 0 in
  let shutting := packer.mk [inr broken] wr true 1 in
  (packer.Next at_eof).2 = inr luigi_EOS /\
  (packer.Next failing).2 = inr (errors_Wrapped broken "ReadPacket failed.") /\
  (packer.Next shutting).2 = inr luigi_EOS /\
  (packer.Pour shutting (packer.VPacket pkt)).2 = None /\
  (packer.Pour failing (packer.VPacket pkt)).2 = Some broken.
Proof.
  intros broken pkt wr at_eof failing shutting.
  pose proof (transport_errors_and_closing at_eof io_EOF pkt) as (Heof & _ & _ & _ & _).
  pose proof (transport_errors_and_closing failing broken pkt) as (_ & Herr & _ & _ & Hwrite).
  pose proof (transport_errors_and_closing shutting broken pkt) as (_ & _ & Hshut & Hquiet & _).
  split_and!.
  - apply Heof; reflexivity.
  - apply Herr; [reflexivity | discriminate | reflexivity].
  - apply Hshut; reflexivity.
  - apply Hquiet; reflexivity.
  - rewrite Hwrite; reflexivity.
Defined.

(** C6, as the code has it. When the read gives a packet, [Next] returns
    that packet with its flags and body as they came and with the id
    negated in int32 arithmetic: the mathematical negation for every id
    but the least int32, which comes back as it is. The reader has moved
    past the packet and nothing else in the transport has changed. *)
Theorem Next_negates_request_id (pkr : packer.t) (rd : Reader) (wire : Packet) :
  ReadPacket (packer.r pkr) = (rd, inl wire) ->
  in_int32 (Req wire) ->
  exists got,
    packer.Next pkr
      = (packer.mk rd (packer.w pkr) (packer.closing pkr) (packer.closed pkr), inl got) /\
    Flag_ got = Flag_ wire /\ Body got = Body wire /\
    Req got = neg32 (Req wire) /\
    (Req wire <> min_int32 -> Req got = - Req wire) /\
    (Req wire = min_int32 -> Req got = Req wire).
Proof.
  intros Hrd Hrange. unfold packer.Next. rewrite Hrd. simpl.
  rewrite andb_false_r. simpl.
  eexists; split_and!; try reflexivity; simpl.
  - intros Hne. apply neg32_opp; assumption.
  - intros ->. reflexivity.
Qed.

Lemma Next_negates_request_id_witness :
  let wire := mkPacket FlagJSON 7 (list_byte_of_string "true") in
  let pkr := packer.NewPacker [inl wire] (mkWriter [] []) in
  exists got,
    packer.Next pkr = (packer.mk [] (mkWriter [] []) false 0, inl got) /\
    Flag_ got = FlagJSON /\ Body got = list_byte_of_string "true" /\
    Req got = neg32 7 /\
    (7 <> min_int32 -> Req got = -7) /\
    (7 = min_int32 -> Req got = 7).
Proof.
  intros wire pkr.
  apply (Next_negates_request_id pkr [] wire); [reflexivity | vm_compute; split; discriminate].
Defined.

(** C6 as stated fails at the least int32: the packet that arrives with
    id -2147483648 is returned with the same id, not with its negation. *)
Lemma Next_keeps_least_request_id :
  let wire := mkPacket FlagJSON (-2147483648) (list_byte_of_string "true") in
  let pkr := packer.NewPacker [inl wire] (mkWriter [] []) in
  exists got, (packer.Next pkr).2 = inl got /\ Req got = Req wire /\ Req got <> - Req wire.
Proof.
  intros wire pkr. exists wire. split_and!; [reflexivity | reflexivity | discriminate].
Qed.

(** ** Parsing *)

Section Parsing.

Variable X : Collaborators.

Lemma parseError_inl data e :
  parseError X data = inl e ->
  json_Unmarshal_CallError X data = inl e /\ Name e = "Error"%string.
Proof.
  unfold parseError. destruct (json_Unmarshal_CallError X data) as [e'|err]; [|discriminate].
  destruct (String.eqb (Name e') "Error") eqn:Hname; simpl; [|discriminate].
  intros [= ->]. split; [reflexivity|]. apply String.eqb_eq, Hname.
Qed.

(** C9. [parseError] yields a CallError only when the bytes decode and
    the decoded name is exactly Error, and then it is the decoded value;
    a decoded value with any other name is rejected with an error, and
    so are bytes that do not decode. *)
Theorem parseError_accepts_only_Error (data : list byte) :
  (forall e, parseError X data = inl e ->
     json_Unmarshal_CallError X data = inl e /\ Name e = "Error"%string) /\
  (forall e, json_Unmarshal_CallError X data = inl e -> Name e <> "Error"%string ->
     parseError X data = inr (errors_New ("name is not " ++ dquote ++ "Error" ++ dquote))) /\
  (forall err, json_Unmarshal_CallError X data = inr err ->
     parseError X data = inr (errors_Wrapped err "error unmarshaling error packet")) /\
  (forall e, json_Unmarshal_CallError X data = inl e -> Name e = "Error"%string ->
     parseError X data = inl e).
Proof.
  split_and!.
  - apply parseError_inl.
  - intros e He Hname. unfold parseError. rewrite He.
    destruct (String.eqb_spec (Name e) "Error"); [contradiction | reflexivity].
  - intros err He. unfold parseError. rewrite He. reflexivity.
  - intros e He Hname. unfold parseError. rewrite He, Hname. reflexivity.
Qed.

End Parsing.

Lemma parseError_accepts_only_Error_witness :
  parseError willing (error_body "Error" "boom")
    = inl (mkCallError "Error" "boom" "at remote") /\
  parseError willing (error_body "TypeError" "boom")
    = inr (errors_New ("name is not " ++ dquote ++ "Error" ++ dquote)) /\
  parseError willing (list_byte_of_string "tru")
    = inr (errors_Wrapped (foreign_error "json: syntax error")
             "error unmarshaling error packet").
Proof.
  split_and!.
  - apply (parseError_accepts_only_Error willing (error_body "Error" "boom"));
      vm_compute; reflexivity.
  - apply (proj1 (proj2 (parseError_accepts_only_Error willing (error_body "TypeError" "boom")))
             (mkCallError "TypeError" "boom" "at remote"));
      vm_compute; [reflexivity | discriminate].
  - apply (parseError_accepts_only_Error willing (list_byte_of_string "tru"));
      vm_compute; reflexivity.
Defined.

Section ParsingRequests.

Variable X : Collaborators.

(** C4, as the code has it. [ParseRequest] rejects every packet that
    lacks the JSON flag or whose id is not negative. When it succeeds the
    envelope has been decoded and the stream is bound to the packet's id
    with these directions: with the Stream flag set the type is duplex,
    source or sink, and duplex opens both directions, source only the
    outbound one (this session streams to the remote caller), sink only
    the inbound one (the remote caller streams to this session); any
    other type, async included, is rejected; with the Stream flag clear
    neither direction is open, whatever the type. *)
Theorem ParseRequest_directions (st : state) (p : Packet) :
  (Flag_Get (Flag_ p) FlagJSON = false \/ 0 <= Req p ->
     exists err, ParseRequest X st p = (st, inr err)) /\
  (forall st' req, ParseRequest X st p = (st', inl req) ->
     Flag_Get (Flag_ p) FlagJSON = true /\ Req p < 0 /\
     (exists env, json_Unmarshal_Request X (Body p) = inl env /\
        Type_ req = env_type env /\ Method req = env_name env /\
        Args req = env_args env) /\
     st_req (Stream_ req) = Req p /\ pkt req = Some p /\
     let ins := st_inStream (Stream_ req) in
     let outs := st_outStream (Stream_ req) in
     if Flag_Get (Flag_ p) FlagStream then
       (Type_ req = "duplex"%string /\ ins = true /\ outs = true) \/
       (Type_ req = "source"%string /\ ins = false /\ outs = true) \/
       (Type_ req = "sink"%string /\ ins = true /\ outs = false)
     else ins = false /\ outs = false) /\
  (forall env, Flag_Get (Flag_ p) FlagJSON = true -> Req p < 0 ->
     json_Unmarshal_Request X (Body p) = inl env ->
     Flag_Get (Flag_ p) FlagStream = true ->
     env_type env <> "duplex"%string -> env_type env <> "source"%string ->
     env_type env <> "sink"%string ->
     exists st' err, ParseRequest X st p = (st', inr err)).
Proof.
  split_and!.
  - intros [Hj|Hid]; unfold ParseRequest.
    + rewrite Hj. simpl. eauto.
    + destruct (Flag_Get (Flag_ p) FlagJSON); simpl; [|eauto].
      destruct (Z.geb_spec (Req p) 0); [eauto | lia].
  - intros st' req. unfold ParseRequest.
    destruct (Flag_Get (Flag_ p) FlagJSON); simpl; [|discriminate].
    destruct (Z.geb_spec (Req p) 0); [discriminate|].
    destruct (json_Unmarshal_Request X (Body p)) as [env|err]; [|discriminate].
    simpl.
    destruct (Flag_Get (Flag_ p) FlagStream).
    + destruct (String.eqb_spec (env_type env) "duplex");
        [|destruct (String.eqb_spec (env_type env) "source");
           [|destruct (String.eqb_spec (env_type env) "sink"); [|discriminate]]];
        intros [= <- <-]; simpl; split_and!; eauto 10; lia.
    + intros [= <- <-]; simpl; split_and!; eauto 10; lia.
  - intros env Hj Hid Henv Hs Hd Hso Hsi. unfold ParseRequest.
    rewrite Hj, Henv, Hs. simpl.
    destruct (Z.geb_spec (Req p) 0); [lia|].
    destruct (String.eqb_spec (env_type env) "duplex"); [contradiction|].
    destruct (String.eqb_spec (env_type env) "source"); [contradiction|].
    destruct (String.eqb_spec (env_type env) "sink"); [contradiction|].
    eauto.
Qed.

End ParsingRequests.

Lemma ParseRequest_directions_witness :
  (exists err,
     ParseRequest willing fresh (mkPacket FlagStream (-1) (envelope_body "source" ["log"]))
       = (fresh, inr err)) /\
  (let p := mkPacket (Flag_Set FlagJSON FlagStream) (-1) (envelope_body "source" ["log"]) in
   exists st' req,
     ParseRequest willing fresh p = (st', inl req) /\
     st_req (Stream_ req) = -1 /\
     st_inStream (Stream_ req) = false /\ st_outStream (Stream_ req) = true) /\
  (exists st' err,
     ParseRequest willing fresh
       (mkPacket (Flag_Set FlagJSON FlagStream) (-1) (envelope_body "async" ["whoami"]))
     = (st', inr err)).
Proof.
  split_and!.
  - apply (ParseRequest_directions willing fresh
             (mkPacket FlagStream (-1) (envelope_body "source" ["log"]))).
    left. reflexivity.
  - intros p.
    destruct (ParseRequest willing fresh p) as [st' [req|err]] eqn:Hp;
      [|vm_compute in Hp; discriminate].
    exists st', req. split; [reflexivity|].
    pose proof (proj1 (proj2 (ParseRequest_directions willing fresh p)) st' req Hp)
      as (_ & _ & (env & Henv & Hty & _) & Hreq & _ & Hdir).
    split; [exact Hreq|].
    change (Flag_Get (Flag_ p) FlagStream) with true in Hdir. simpl in Hdir.
    assert (Hsrc : Type_ req = "source"%string).
    { rewrite Hty. vm_compute in Henv. injection Henv as <-. reflexivity. }
    destruct Hdir as [(Hd & _)|[(_ & Hi & Ho)|(Hs & _)]];
      [rewrite Hsrc in Hd; discriminate | split; assumption | rewrite Hsrc in Hs; discriminate].
  - apply (proj2 (proj2 (ParseRequest_directions willing fresh
             (mkPacket (Flag_Set FlagJSON FlagStream) (-1) (envelope_body "async" ["whoami"]))))
             (mkEnvelope "async" ["whoami"] (Some [])));
      try (vm_compute; reflexivity); try discriminate.
Defined.

(** C4 as stated fails on a duplex envelope in a packet without the Stream
    flag: parsing succeeds and neither direction is open. *)
Lemma ParseRequest_duplex_without_Stream_flag :
  let p := mkPacket FlagJSON (-1) (envelope_body "duplex" ["chat"]) in
  exists st' req,
    ParseRequest willing fresh p = (st', inl req) /\
    Type_ req = "duplex"%string /\
    st_inStream (Stream_ req) = false /\ st_outStream (Stream_ req) = false.
Proof.
  intros p. vm_compute. do 2 eexists. split_and!; reflexivity.
Qed.

(** ** The dispatch loop *)

Section Loop.

Variable X : Collaborators.

Lemma Serve_return ctx st st' err :
  serve_turn X ctx st = (st', Return err) -> Serve X ctx st = (st', err).
Proof.
  intros H. rewrite Serve_equation_1.
  destruct (inspect (serve_turn X ctx st)) as [[st1 o] Heq].
  assert (Hsame : (st1, o) = (st', Return err)) by congruence.
  injection Hsame as -> ->. reflexivity.
Qed.

Lemma Serve_continue ctx st st' :
  serve_turn X ctx st = (st', Continue) -> Serve X ctx st = Serve X ctx st'.
Proof.
  intros H. rewrite Serve_equation_1.
  destruct (inspect (serve_turn X ctx st)) as [[st1 o] Heq].
  assert (Hsame : (st1, o) = (st', Continue)) by congruence.
  injection Hsame as -> ->. reflexivity.
Qed.

Lemma Serve_packet ctx st st1 p :
  serve_read st = (st1, inl p) ->
  Serve X ctx st =
    match serve_packet X ctx st1 p with
    | (st', Continue) => Serve X ctx st'
    | (st', Return err) => (st', err)
    end.
Proof.
  intros Hread.
  destruct (serve_packet X ctx st1 p) as [st' [|err]] eqn:Hp.
  - apply Serve_continue. unfold serve_turn. rewrite Hread. exact Hp.
  - apply Serve_return. unfold serve_turn. rewrite Hread. exact Hp.
Qed.

(** What the read at the head of a turn gives when the connection holds
    a packet. *)
Lemma serve_read_packet st wire rd :
  packer.r (pkr (session st)) = inl wire :: rd ->
  serve_read st =
    (with_session st
       (with_pkr (session st)
          (packer.mk rd (packer.w (pkr (session st)))
             (packer.closing (pkr (session st))) (packer.closed (pkr (session st))))),
     inl (mkPacket (Flag_ wire) (neg32 (Req wire)) (Body wire))).
Proof.
  intros Hr. unfold serve_read, packer.Next. rewrite Hr. simpl.
  rewrite andb_false_r. reflexivity.
Qed.

Lemma serve_read_keeps st st1 p :
  serve_read st = (st1, inl p) ->
  reqs (session st1) = reqs (session st) /\ calls st1 = calls st /\
  highest (session st1) = highest (session st).
Proof.
  unfold serve_read. destruct (packer.Next (pkr (session st))) as [pkr' [q|e]].
  - intros [= <- <-]. auto.
  - repeat case_match; discriminate.
Qed.

(** C2, as amended. A packet flagged EndErr whose id is in the table.
    If the body is the four bytes of [true], the pipe is closed and then,
    if that succeeded, the Stream. If the body is anything else, it is
    decoded as a CallError; only when it decodes and its name is exactly
    [Error] is the pipe closed, with that error. When every step of the
    branch succeeds, the id is deleted from the table and the loop goes
    on with the next packet. When a step fails, decoding and the test of
    the name included, [Serve] returns the error of that step, wrapped
    with the message of the step; the later steps are not run (after a
    body that is no error the pipe is asked nothing), the entry stays in
    the table and no further packet is read. [returns] and [goes_on] give
    the calls made in the turn, one by one. *)
Theorem Serve_closes_known_request ctx st st1 p req :
  serve_read st = (st1, inl p) ->
  Flag_Get (Flag_ p) FlagEndErr = true ->
  reqs (session st1) !! Req p = Some req ->
  let close_pipe := Sink_Close (in_ req) in
  let close_stream := Stream_Close (Stream_ req) in
  let close_with := Sink_CloseWithError (in_ req) in
  let returns (asked : list Call) (err : error) :=
    exists st', Serve X ctx st = (st', Some err) /\
                calls st' = calls st1 ++ asked /\
                reqs (session st') = reqs (session st1) /\
                packer.r (pkr (session st')) = packer.r (pkr (session st1)) in
  let goes_on (asked : list Call) :=
    exists st', Serve X ctx st = Serve X ctx st' /\
                calls st' = calls st1 ++ asked /\
                reqs (session st') = delete (Req p) (reqs (session st1)) /\
                packer.r (pkr (session st')) = packer.r (pkr (session st1)) in
  (Body p = list_byte_of_string "true" ->
     match answer X (calls st1) close_pipe with
     | Some e => returns [close_pipe] (errors_Wrapped e "error closing pipe sink")
     | None =>
         match answer X (calls st1 ++ [close_pipe]) close_stream with
         | Some e => returns [close_pipe; close_stream]
                       (errors_Wrapped e "error closing stream")
         | None => goes_on [close_pipe; close_stream]
         end
     end) /\
  (Body p <> list_byte_of_string "true" ->
     match json_Unmarshal_CallError X (Body p) with
     | inr e =>
         returns [] (errors_Wrapped (errors_Wrapped e "error unmarshaling error packet")
                       "error parsing error packet")
     | inl ce =>
         if String.eqb (Name ce) "Error" then
           match answer X (calls st1) (close_with ce) with
           | Some e => returns [close_with ce]
                         (errors_Wrapped e "error closing pipe sink with error")
           | None => goes_on [close_with ce]
           end
         else
           returns [] (errors_Wrapped
                         (errors_New ("name is not " ++ dquote ++ "Error" ++ dquote))
                         "error parsing error packet")
     end).
Proof.
  intros Hread Hflag Hreq close_pipe close_stream close_with returns goes_on.
  subst close_pipe close_stream close_with returns goes_on. cbv beta.
  rewrite (Serve_packet ctx st st1 p Hread).
  unfold serve_packet. rewrite Hflag, Hreq. unfold serve_close.
  split.
  - intros Hbody. apply isTrue_iff in Hbody. rewrite Hbody.
    unfold ask. cbn [fst snd].
    destruct (answer X (calls st1) (Sink_Close (in_ req))) as [e|].
    { eexists. split; [reflexivity|]. split_and!; reflexivity. }
    cbn [spawn calls session pipes].
    destruct (answer X (calls st1 ++ [Sink_Close (in_ req)])
                (Stream_Close (Stream_ req))) as [e|]; cbn [errors_Wrap].
    + eexists. split; [reflexivity|]. cbn. rewrite <- app_assoc. split_and!; reflexivity.
    + eexists. split; [reflexivity|]. cbn. rewrite <- app_assoc. split_and!; reflexivity.
  - intros Hbody.
    destruct (isTrue (Body p)) eqn:Htrue; [apply isTrue_iff in Htrue; contradiction|].
    unfold parseError.
    destruct (json_Unmarshal_CallError X (Body p)) as [ce|e].
    + destruct (String.eqb (Name ce) "Error"); cbn [negb].
      * unfold ask. cbn [fst snd].
        destruct (answer X (calls st1) (Sink_CloseWithError (in_ req) ce)) as [e|];
          cbn [errors_Wrap]; eexists; (split; [reflexivity|]); cbn;
          split_and!; reflexivity.
      * eexists. split; [reflexivity|]. rewrite app_nil_r. split_and!; reflexivity.
    + eexists. split; [reflexivity|]. rewrite app_nil_r. split_and!; reflexivity.
Qed.

(** C7. A packet without the EndErr flag whose id is in the table is
    poured into the pipe of that request under a context whose deadline
    is at most [rxTimeout], one millisecond, away: the turn makes exactly
    one call, the pour of this packet into this pipe, and changes nothing
    else of the session. If the pipe reports that the pour did not
    succeed, [Serve] returns a non-nil error wrapping the report and
    reads no further packet; otherwise the loop goes on. *)
Theorem Serve_delivers_under_rxTimeout ctx st st1 p req :
  serve_read st = (st1, inl p) ->
  Flag_Get (Flag_ p) FlagEndErr = false ->
  reqs (session st1) !! Req p = Some req ->
  let ctx' := context_WithTimeout ctx rxTimeout in
  let pour := Sink_Pour (in_ req) ctx' p in
  rxTimeout = 1000000 /\
  (exists t, ctx' = Some t /\ t <= rxTimeout) /\
  (ctx = None -> ctx' = Some rxTimeout) /\
  exists st2,
    calls st2 = calls st1 ++ [pour] /\
    session st2 = session st1 /\
    pipes st2 = pipes st1 /\
    match answer X (calls st1) pour with
    | Some e =>
        Serve X ctx st = (st2, Some (errors_Wrapped e "error pouring data to handler"))
    | None => Serve X ctx st = Serve X ctx st2
    end.
Proof.
  intros Hread Hflag Hreq ctx' pour.
  split; [reflexivity|]. split.
  { unfold ctx'. destruct ctx as [t|]; simpl; eexists; split; try reflexivity; lia. }
  split; [intros ->; reflexivity|].
  rewrite (Serve_packet ctx st st1 p Hread).
  unfold serve_packet, serve_deliver, fetchRequest. rewrite Hflag, Hreq.
  cbn [negb]. unfold ask. fold ctx'. fold pour.
  exists (mkState (session st1) (calls st1 ++ [pour]) (pipes st1)).
  split_and!; try reflexivity.
  destruct (answer X (calls st1) pour) as [e|]; reflexivity.
Qed.

(** An EndErr packet whose id is not in the table is never skipped: the
    turn goes through [fetchRequest], which either makes [Serve] return
    an error or registers the id as a new call and hands it to the
    handler. *)
Lemma Serve_unknown_termination ctx st st1 p :
  serve_read st = (st1, inl p) ->
  Flag_Get (Flag_ p) FlagEndErr = true ->
  reqs (session st1) !! Req p = None ->
  (exists st' e, Serve X ctx st = (st', Some e)) \/
  (exists st' req,
     Serve X ctx st = Serve X ctx st' /\
     reqs (session st') !! Req p = Some req /\
     calls st' = calls st1 ++ [go_HandleCall req]).
Proof.
  intros Hread Hflag Hreq.
  rewrite (Serve_packet ctx st st1 p Hread).
  unfold serve_packet, serve_deliver, fetchRequest. rewrite Hflag, Hreq.
  destruct (ParseRequest X st1 p) as [st2 [req|err]] eqn:Hparse.
  - right. do 2 eexists. split; [reflexivity|]. simpl.
    split; [apply lookup_insert_eq|].
    f_equal. revert Hparse. unfold ParseRequest, luigi_NewPipe.
    repeat case_match; intros; simplify_eq; reflexivity.
  - left. eauto.
Qed.

End Loop.

Lemma Serve_closes_known_request_witness :
  let clean := outstanding willing [wire_end] in
  let failed := outstanding willing [wire_error "Error" "boom"] in
  let st1 := (serve_read clean).1 in
  let st2 := (serve_read failed).1 in
  let p := newEndOkayPacket 1 in
  let q := mkPacket (Flag_ p) 1 (error_body "Error" "boom") in
  let ce := mkCallError "Error" "boom" "at remote" in
  exists req,
    (serve_read clean = (st1, inl p) /\
     Flag_Get (Flag_ p) FlagEndErr = true /\
     reqs (session st1) !! Req p = Some req /\
     Body p = list_byte_of_string "true" /\
     exists st',
       Serve willing context_Background clean = Serve willing context_Background st' /\
       calls st' = calls st1 ++ [Sink_Close (in_ req); Stream_Close (Stream_ req)] /\
       reqs (session st') = delete 1 (reqs (session st1)) /\
       packer.r (pkr (session st')) = packer.r (pkr (session st1))) /\
    (serve_read failed = (st2, inl q) /\
     Flag_Get (Flag_ q) FlagEndErr = true /\
     reqs (session st2) !! Req q = Some req /\
     Body q <> list_byte_of_string "true" /\
     exists st',
       Serve willing context_Background failed = Serve willing context_Background st' /\
       calls st' = calls st2 ++ [Sink_CloseWithError (in_ req) ce] /\
       reqs (session st') = delete 1 (reqs (session st2)) /\
       packer.r (pkr (session st')) = packer.r (pkr (session st2))).
Proof.
  intros clean failed st1 st2 p q ce.
  assert (Hread1 : serve_read clean = (st1, inl p)) by (vm_compute; reflexivity).
  assert (Hread2 : serve_read failed = (st2, inl q)) by (vm_compute; reflexivity).
  assert (Hflag1 : Flag_Get (Flag_ p) FlagEndErr = true) by reflexivity.
  assert (Hflag2 : Flag_Get (Flag_ q) FlagEndErr = true) by reflexivity.
  assert (Hbody : Body q <> list_byte_of_string "true") by (vm_compute; discriminate).
  destruct (reqs (session st1) !! Req p) as [req|] eqn:Hreq1;
    [|vm_compute in Hreq1; discriminate].
  assert (Hreq2 : reqs (session st2) !! Req q = Some req).
  { rewrite <- Hreq1. vm_compute. reflexivity. }
  exists req. split.
  - split_and!; [exact Hread1 | exact Hflag1 | reflexivity | reflexivity |].
    destruct (Serve_closes_known_request willing context_Background clean st1 p req
                Hread1 Hflag1 Hreq1) as [Hclean _].
    exact (Hclean eq_refl).
  - split_and!; [exact Hread2 | exact Hflag2 | exact Hreq2 | exact Hbody |].
    destruct (Serve_closes_known_request willing context_Background failed st2 q req
                Hread2 Hflag2 Hreq2) as [_ Herror].
    exact (Herror Hbody).
Defined.

(** C2 as stated fails on the code: not every body other than [true]
    closes the pipe, and a branch that fails leaves the id in the table.
    The remote ends call 1 with an object whose name is not [Error]:
    [Serve] returns the error of [parseError], the pipe is asked nothing
    and id 1 stays. The remote ends call 1 cleanly and the pipe refuses
    to close: [Serve] returns that failure and id 1 stays. In both runs
    the reply behind the termination is left unread. *)
Theorem Serve_failed_termination_keeps_request :
  let malformed := outstanding willing [wire_error "TypeError" "boom"; wire_reply] in
  let refused := outstanding jammed [wire_end; wire_reply] in
  let res1 := Serve willing context_Background malformed in
  let res2 := Serve jammed context_Background refused in
  is_Some (reqs (session malformed) !! 1) /\
  res1.2 = Some (errors_Wrapped
                   (errors_New ("name is not " ++ dquote ++ "Error" ++ dquote))
                   "error parsing error packet") /\
  calls res1.1 = calls malformed /\
  reqs (session res1.1) = reqs (session malformed) /\
  packer.r (pkr (session res1.1)) = [wire_reply] /\
  is_Some (reqs (session refused) !! 1) /\
  res2.2 = Some (errors_Wrapped pipe_closed "error closing pipe sink") /\
  calls res2.1 = calls refused ++ [Sink_Close 0%nat] /\
  reqs (session res2.1) = reqs (session refused) /\
  packer.r (pkr (session res2.1)) = [wire_reply].
Proof.
  intros malformed refused res1 res2. split_and!.
  - vm_compute. eexists; reflexivity.
  - vm_compute. reflexivity.
  - vm_compute. reflexivity.
  - vm_compute. reflexivity.
  - vm_compute. reflexivity.
  - vm_compute. eexists; reflexivity.
  - vm_compute. reflexivity.
  - vm_compute. reflexivity.
  - vm_compute. reflexivity.
  - vm_compute. reflexivity.
Qed.

Lemma Serve_delivers_under_rxTimeout_witness :
  let slow := outstanding stalled [wire_reply] in
  let quick := outstanding willing [wire_reply] in
  let st1 := (serve_read slow).1 in
  let st2 := (serve_read quick).1 in
  let p := mkPacket FlagJSON 1 (text (JString "alice")) in
  exists req,
    let pour := Sink_Pour (in_ req) (Some 1000000) p in
    (serve_read slow = (st1, inl p) /\
     Flag_Get (Flag_ p) FlagEndErr = false /\
     reqs (session st1) !! Req p = Some req /\
     exists st',
       calls st' = calls st1 ++ [pour] /\
       session st' = session st1 /\
       Serve stalled context_Background slow
         = (st', Some (errors_Wrapped context_DeadlineExceeded
                         "error pouring data to handler"))) /\
    (serve_read quick = (st2, inl p) /\
     reqs (session st2) !! Req p = Some req /\
     exists st',
       calls st' = calls st2 ++ [pour] /\
       session st' = session st2 /\
       Serve willing context_Background quick = Serve willing context_Background st').
Proof.
  intros slow quick st1 st2 p.
  assert (Hread1 : serve_read slow = (st1, inl p)) by (vm_compute; reflexivity).
  assert (Hread2 : serve_read quick = (st2, inl p)) by (vm_compute; reflexivity).
  assert (Hflag : Flag_Get (Flag_ p) FlagEndErr = false) by reflexivity.
  destruct (reqs (session st1) !! Req p) as [req|] eqn:Hreq1;
    [|vm_compute in Hreq1; discriminate].
  assert (Hreq2 : reqs (session st2) !! Req p = Some req).
  { rewrite <- Hreq1. vm_compute. reflexivity. }
  exists req. intros pour. split.
  - split_and!; [exact Hread1 | exact Hflag | reflexivity |].
    destruct (Serve_delivers_under_rxTimeout stalled context_Background slow st1 p req
                Hread1 Hflag Hreq1) as (_ & _ & _ & st' & Hcalls & Hsession & _ & Hpour).
    exists st'. split_and!; [exact Hcalls | exact Hsession | exact Hpour].
  - split_and!; [exact Hread2 | exact Hreq2 |].
    destruct (Serve_delivers_under_rxTimeout willing context_Background quick st2 p req
                Hread2 Hflag Hreq2) as (_ & _ & _ & st' & Hcalls & Hsession & _ & Hpour).
    exists st'. split_and!; [exact Hcalls | exact Hsession | exact Hpour].
Defined.

(** C1 fails on the code. The remote ends call 1 twice. The first
    termination closes the request and removes id 1; the second finds the
    id absent, is handed to [fetchRequest] like a first packet of a new
    call, and [Serve] returns the error of [ParseRequest]. *)
Theorem Serve_duplicate_termination_is_fatal :
  let st := outstanding willing [wire_end; wire_end] in
  is_Some (reqs (session st) !! 1) /\
  (Serve willing context_Background (outstanding willing [wire_end])).2 = None /\
  (Serve willing context_Background st).2
    = Some (errors_Wrapped
              (errors_Wrapped (errors_New "expected negative request id")
                 "error parsing request")
              "error getting request") /\
  reqs (session (Serve willing context_Background st).1) !! 1 = None.
Proof.
  intros st. split_and!.
  - vm_compute. eexists; reflexivity.
  - vm_compute. reflexivity.
  - vm_compute. reflexivity.
  - vm_compute. reflexivity.
Qed.

(** ** Outbound calls *)

Section Outbound.

Variable X : Collaborators.

Lemma fill_Args_Type req : Type_ (fill_Args req) = Type_ req.
Proof. unfold fill_Args. destruct (Args req); reflexivity. Qed.

(** The closure as a whole: one step from the session before the lock
    is taken to the session when it is released. *)
Lemma do_locked_spec (s : rpc) (req : Request) :
  let id := add32 (highest s) 1 in
  let p := call_packet X req id in
  do_locked X s (do_enter req)
    = (mkRpc (pkr s) (<[id := bind p (fill_Args req)]> (reqs s)) id (terminated s),
       mkFrame (bind p (fill_Args req)) p
         match json_Marshal X (fill_Args req) with inl _ => None | inr e => Some e end).
Proof.
  unfold do_locked, do_bind, do_insert, do_count, do_alloc, do_marshal, do_flags,
    do_enter, call_packet, with_reqs. simpl.
  destruct (json_Marshal X (fill_Args req)) as [b|e]; simpl;
    rewrite alter_insert_eq; reflexivity.
Qed.

Lemma add32_moves h : add32 h 1 <> h.
Proof.
  unfold add32, wrap32. intros Heq.
  pose proof (Z.mod_pos_bound (h + 1 + 2147483648) 4294967296 ltac:(lia)) as Hb.
  assert (Hh : (h + 2147483648) mod 4294967296 = h + 2147483648)
    by (apply Z.mod_small; lia).
  assert (Hs : (h + 1 + 2147483648) mod 4294967296
               = ((h + 2147483648) mod 4294967296 + 1) mod 4294967296).
  { replace (h + 1 + 2147483648) with ((h + 2147483648) + 1) by lia.
    rewrite Z.add_mod by lia. rewrite (Z.mod_small 1) by lia. reflexivity. }
  rewrite Hh in Hs.
  destruct (Z.eq_dec (h + 2147483648 + 1) 4294967296) as [Htop|Htop].
  - rewrite Htop in Hs. rewrite Z.mod_same in Hs by lia. lia.
  - rewrite (Z.mod_small (h + 2147483648 + 1)) in Hs by lia. lia.
Qed.

(** What every call of [Do] does to the session, whatever becomes of
    the encoding and of the send. *)
Lemma Do_allocates (st : state) (req : Request) :
  let id := add32 (highest (session st)) 1 in
  let req' := bind (call_packet X req id) (fill_Args req) in
  (Do X st req).1.2 = req' /\
  st_req (Stream_ req') = id /\
  highest (session (Do X st req).1.1) = id /\
  reqs (session (Do X st req).1.1) = <[id := req']> (reqs (session st)) /\
  terminated (session (Do X st req).1.1) = terminated (session st) /\
  calls (Do X st req).1.1 = calls st.
Proof.
  unfold Do. rewrite do_locked_spec. unfold do_send. cbn [f_err f_pkt f_req pkr].
  destruct (json_Marshal X (fill_Args req)).
  - destruct (packer.Pour (pkr (session st)) _) as [pkr' e]. simpl. auto 10.
  - simpl. auto 10.
Qed.

(** C10. When the encoding of the envelope fails, [Do] returns the
    encoding error, and by then the counter has moved to the new id, the
    request is in the table under it and its Stream is bound to it;
    nothing has been handed to the transport. *)
Theorem Do_encoding_failure_after_registration (st : state) (req : Request) (e : error) :
  json_Marshal X (fill_Args req) = inr e ->
  let id := add32 (highest (session st)) 1 in
  exists st' req',
    Do X st req = (st', req', Some e) /\
    highest (session st') = id /\ highest (session st') <> highest (session st) /\
    reqs (session st') !! id = Some req' /\
    reqs (session st') = <[id := req']> (reqs (session st)) /\
    st_req (Stream_ req') = id /\ st_tipe (Stream_ req') = tipe req /\
    pkr (session st') = pkr (session st).
Proof.
  intros Hm id. unfold Do. rewrite do_locked_spec. unfold do_send. simpl.
  rewrite Hm. simpl. do 2 eexists. split; [reflexivity|]. simpl.
  split_and!; try reflexivity.
  - apply add32_moves.
  - apply lookup_insert_eq.
  - unfold fill_Args. destruct (Args req); reflexivity.
Qed.

(** C8. When the encoding succeeds and the transport's [Pour] fails,
    [Do] returns that error, and the session keeps the allocation: the
    request stays in the table under the new id, the counter stays at
    that id, and the next call gets the id after it. *)
Theorem Do_send_failure_keeps_registration
    (st : state) (req : Request) (body : list byte) (pkr' : packer.t) (e : error) :
  json_Marshal X (fill_Args req) = inl body ->
  let id := add32 (highest (session st)) 1 in
  packer.Pour (pkr (session st)) (packer.VPacket (call_packet X req id)) = (pkr', Some e) ->
  exists st' req',
    Do X st req = (st', req', Some e) /\
    Body (call_packet X req id) = body /\
    reqs (session st') !! id = Some req' /\
    reqs (session st') = <[id := req']> (reqs (session st)) /\
    highest (session st') = id /\
    pkt req' = Some (call_packet X req id) /\
    forall next, st_req (Stream_ (Do X st' next).1.2) = add32 id 1 /\ add32 id 1 <> id.
Proof.
  intros Hm id Hpour.
  pose (req' := bind (call_packet X req id) (fill_Args req)).
  pose (st' := with_session st
                 (with_pkr (mkRpc (pkr (session st)) (<[id := req']> (reqs (session st)))
                              id (terminated (session st))) pkr')).
  assert (HDo : Do X st req = (st', req', Some e)).
  { unfold Do. rewrite do_locked_spec. unfold do_send.
    cbn [f_err f_pkt f_req pkr]. rewrite Hm. fold id. rewrite Hpour. reflexivity. }
  exists st', req'. split; [exact HDo|].
  split_and!; try reflexivity.
  - unfold call_packet. rewrite Hm. reflexivity.
  - apply lookup_insert_eq.
  - intros next. destruct (Do_allocates st' next) as (-> & Hid & _).
    split; [exact Hid | apply add32_moves].
Qed.

End Outbound.

Lemma Do_encoding_failure_after_registration_witness :
  let req := call_request "async" false false 0%nat None ["publish"%string]
               (Some [ArgOpaque "chan int"]) in
  let e := foreign_error "json: unsupported type: chan int" in
  json_Marshal willing (fill_Args req) = inr e /\
  exists st' req',
    Do willing fresh req = (st', req', Some e) /\
    highest (session st') = 1 /\ highest (session st') <> highest (session fresh) /\
    reqs (session st') !! 1 = Some req' /\
    reqs (session st') = <[1 := req']> (reqs (session fresh)) /\
    st_req (Stream_ req') = 1 /\ st_tipe (Stream_ req') = tipe req /\
    pkr (session st') = pkr (session fresh).
Proof.
  intros req e. split; [reflexivity|].
  apply (Do_encoding_failure_after_registration willing fresh req e). reflexivity.
Defined.

Lemma Do_send_failure_keeps_registration_witness :
  let broken := foreign_error "write: broken pipe" in
  let st := Handle (packer.NewPacker [] (mkWriter [Some broken] [])) in
  let body := text (JObject [("type"%string, JString "async");
                             ("name"%string, JArray [JString "whoami"]);
                             ("args"%string, JArray [])]) in
  json_Marshal willing (fill_Args whoami) = inl body /\
  (packer.Pour (pkr (session st)) (packer.VPacket (call_packet willing whoami 1))).2
    = Some broken /\
  exists st' req',
    Do willing st whoami = (st', req', Some broken) /\
    reqs (session st') !! 1 = Some req' /\
    highest (session st') = 1.
Proof.
  intros broken st body.
  assert (Hm : json_Marshal willing (fill_Args whoami) = inl body) by (vm_compute; reflexivity).
  split; [exact Hm|]. split; [vm_compute; reflexivity|].
  destruct (Do_send_failure_keeps_registration willing st whoami body
              (packer.Pour (pkr (session st)) (packer.VPacket (call_packet willing whoami 1))).1
              broken Hm)
    as (st' & req' & HDo & _ & Hreq & _ & Hhigh & _).
  { vm_compute. reflexivity. }
  exists st', req'. auto.
Defined.

(** ** Allocation of ids *)

Lemma wrap32_add_l a b : wrap32 (wrap32 a + b) = wrap32 (a + b).
Proof.
  unfold wrap32.
  replace ((a + 2147483648) mod 4294967296 - 2147483648 + b + 2147483648)
    with ((a + 2147483648) mod 4294967296 + b) by lia.
  rewrite Z.add_mod_idemp_l by lia.
  replace (a + 2147483648 + b) with (a + b + 2147483648) by lia. reflexivity.
Qed.

Section Allocation.

Variable X : Collaborators.

(** Calls made one after the other, as long as the counter stays below
    the greatest int32: the ids are the integers that follow the
    counter, in order, and all of them are in the table at the end. *)
Lemma Do_all_ids (requests : list Request) :
  forall st,
    in_int32 (highest (session st)) ->
    highest (session st) + Z.of_nat (length requests) <= max_int32 ->
    (Do_all X st requests).2
      = seqZ (highest (session st) + 1) (Z.of_nat (length requests)) /\
    highest (session (Do_all X st requests).1)
      = highest (session st) + Z.of_nat (length requests) /\
    (forall id, is_Some (reqs (session st) !! id) ->
                is_Some (reqs (session (Do_all X st requests).1) !! id)) /\
    (forall id, id ∈ (Do_all X st requests).2 ->
                is_Some (reqs (session (Do_all X st requests).1) !! id)).
Proof.
  induction requests as [|req rest IH]; intros st Hrange Hroom.
  - simpl. split_and!; [reflexivity | lia | auto | intros id Hid; inversion Hid].
  - cbn [Do_all length] in *.
    destruct (Do_allocates X st req) as (Hreq & Hid & Hhigh & Htab & _).
    destruct (Do X st req) as [[st1 req'] err]. simpl in Hreq, Hhigh, Htab.
    assert (Hnext : add32 (highest (session st)) 1 = highest (session st) + 1).
    { apply add32_succ; [assumption|lia]. }
    specialize (IH st1).
    destruct (Do_all X st1 rest) as [st2 ids]. simpl in *.
    destruct IH as (Hids & Hh & Hkeep & Hin).
    { rewrite Hhigh, Hnext. unfold in_int32, min_int32, max_int32 in *. lia. }
    { rewrite Hhigh, Hnext. lia. }
    rewrite Hhigh, Hnext in *. split_and!.
    + rewrite seqZ_cons by lia. subst req'. simpl. rewrite Hids.
      do 2 f_equal; lia.
    + lia.
    + intros id Hsome. apply Hkeep. rewrite Htab.
      apply lookup_insert_is_Some. destruct (decide (highest (session st) + 1 = id)); auto.
    + intros id [->|Hrest]%elem_of_cons.
      * apply Hkeep. rewrite Htab. subst req'. simpl.
        rewrite lookup_insert_eq. eauto.
      * apply Hin, Hrest.
Qed.

(** The counter after [n] calls. *)
Lemma Do_times_highest (req : Request) (st : state) (n : N) :
  in_int32 (highest (session st)) ->
  highest (session (Do_times X n req st)) = wrap32 (highest (session st) + Z.of_N n).
Proof.
  intros Hrange. unfold Do_times. induction n as [|n IH] using N.peano_ind.
  - simpl. rewrite Z.add_0_r, wrap32_id; auto.
  - rewrite N.iter_succ.
    destruct (Do_allocates X (N.iter n (fun st0 => (Do X st0 req).1.1) st) req)
      as (_ & _ & Hhigh & _).
    rewrite Hhigh, IH. unfold add32. rewrite wrap32_add_l. f_equal. lia.
Qed.

(** The id given by the call that follows a known counter. *)
Lemma Do_after_highest st req h :
  highest (session st) = h ->
  st_req (Stream_ (Do X st req).1.2) = add32 h 1.
Proof.
  intros <-. destruct (Do_allocates X st req) as (-> & Hid & _). exact Hid.
Qed.

End Allocation.

Lemma Z_not_lt_by_eq (a b a' b' : Z) : a = a' -> b = b' -> ~ a' < b' -> ~ a < b.
Proof. intros -> ->. auto. Qed.

(** C3 as stated fails once the counter reaches the greatest int32. The
    call after 2147483647 calls is given the least int32, below every id
    given before; and after 4294967296 calls the counter is back where it
    began, so that the next call is given id 1, as the first call was. *)
Lemma Do_ids_wrap_around :
  highest (session (Do_times willing 2147483647 whoami fresh)) = 2147483647 /\
  st_req (Stream_ (Do willing (Do_times willing 2147483647 whoami fresh) whoami).1.2)
    = -2147483648 /\
  ~ highest (session (Do_times willing 2147483647 whoami fresh))
    < st_req (Stream_ (Do willing (Do_times willing 2147483647 whoami fresh) whoami).1.2) /\
  st_req (Stream_ (Do willing fresh whoami).1.2) = 1 /\
  st_req (Stream_ (Do willing (Do_times willing 4294967296 whoami fresh) whoami).1.2) = 1.
Proof.
  assert (Hfresh : in_int32 (highest (session fresh))) by (vm_compute; split; discriminate).
  pose proof (Do_times_highest willing whoami fresh 2147483647 Hfresh) as Hfull.
  pose proof (Do_times_highest willing whoami fresh 4294967296 Hfresh) as Hround.
  pose proof (Do_after_highest willing _ whoami _ Hfull) as Hnext.
  split_and!.
  - exact Hfull.
  - exact Hnext.
  - refine (Z_not_lt_by_eq _ _ _ _ Hfull Hnext _). vm_compute. discriminate.
  - exact (Do_after_highest willing fresh whoami 0 eq_refl).
  - exact (Do_after_highest willing _ whoami _ Hround).
Qed.

(** ** Interleaved calls *)

Module InterleavingFacts.
Import Interleaving.

Lemma sum_list_with_insert {A} (f : A -> nat) (l : list A) i t t' :
  l !! i = Some t ->
  (sum_list_with f (<[i := t']> l) + f t = sum_list_with f l + f t')%nat.
Proof.
  revert i. induction l as [|x l IH]; intros [|i] Hi; simpl in *; try discriminate.
  - injection Hi as ->. lia.
  - specialize (IH i Hi). lia.
Qed.

Lemma sum_list_with_zero {A} (f : A -> nat) (l : list A) :
  (forall i t, l !! i = Some t -> f t = 0%nat) -> sum_list_with f l = 0%nat.
Proof.
  induction l as [|x l IH]; intros H; simpl; [reflexivity|].
  rewrite (H 0%nat x eq_refl), IH; [reflexivity|].
  intros i t Hi. apply (H (S i) t Hi).
Qed.

Lemma sum_list_with_ge {A} (f : A -> nat) (l : list A) i t :
  l !! i = Some t -> (f t <= sum_list_with f l)%nat.
Proof.
  intros Hi. apply sum_list_with_in. eapply list_elem_of_lookup_2, Hi.
Qed.

Lemma Inv_start h0 s requests :
  highest s = h0 -> Inv h0 (start s requests).
Proof.
  intros Hh. unfold start. constructor; simpl.
  - reflexivity.
  - rewrite length_fmap. induction requests; simpl; auto.
  - rewrite sum_list_with_zero; [lia|].
    intros i t [req [-> _]]%list_lookup_fmap_Some. reflexivity.
  - intros i t [req [-> _]]%list_lookup_fmap_Some. discriminate.
  - intros i j ti tj [req [-> _]]%list_lookup_fmap_Some. discriminate.
  - intros i t [req [-> _]]%list_lookup_fmap_Some. discriminate.
  - intros id Hid. inversion Hid.
Qed.

Ltac which_thread H :=
  apply list_lookup_insert_Some in H;
  destruct H as [(<- & <- & ?) | (? & H)].

(** While goroutine [i] holds the lock, no other goroutine does. *)
Lemma Inv_alone h0 c i t j tj :
  Inv h0 c -> c_threads c !! i = Some t ->
  critical (t_pc t) = true \/ c_rLock c = false ->
  c_threads c !! j = Some tj -> i <> j -> critical (t_pc tj) = false.
Proof.
  intros HI Hi Hown Hj Hne.
  destruct (critical (t_pc tj)) eqn:Hc; [|reflexivity].
  destruct Hown as [Hci|Hfree].
  - destruct Hne. eapply (inv_excl _ _ HI); eauto.
  - rewrite (inv_lock _ _ HI j tj Hj Hc) in Hfree. discriminate.
Qed.

(** A statement that assigns no id and leaves the counter alone. *)
Lemma Inv_move h0 c i t s' lk' p' fr' :
  Inv h0 c -> c_threads c !! i = Some t ->
  highest s' = highest (c_session c) ->
  (forall id, is_Some (reqs (c_session c) !! id) -> is_Some (reqs s' !! id)) ->
  unallocated p' = unallocated (t_pc t) ->
  t_pc t <> AtCount -> p' <> AtCount ->
  (critical p' = true -> lk' = true) ->
  (critical p' = true -> critical (t_pc t) = true \/ c_rLock c = false) ->
  (lk' = c_rLock c \/ critical (t_pc t) = true \/ c_rLock c = false) ->
  (uninserted (t_pc t) = true ->
     (uninserted p' = true /\ Req (f_pkt fr') = Req (f_pkt (t_frame t))) \/
     is_Some (reqs s' !! Req (f_pkt (t_frame t)))) ->
  Inv h0 (mkConf s' lk' (c_allocs c) (<[i := mkThread p' fr']> (c_threads c))).
Proof.
  intros HI Hi Hhigh Hkeep Hun Hold Hnew Hlk Henter Hlock Hins.
  pose proof (sum_list_with_insert todo _ i t (mkThread p' fr') Hi) as Htodo.
  pose proof (sum_list_with_insert counting _ i t (mkThread p' fr') Hi) as Hcnt.
  assert (Hc0 : counting t = 0%nat) by (unfold counting; destruct (t_pc t); congruence).
  assert (Hc1 : counting (mkThread p' fr') = 0%nat)
    by (unfold counting; simpl; destruct p'; congruence).
  assert (Ht : todo (mkThread p' fr') = todo t) by (unfold todo; simpl; rewrite Hun; reflexivity).
  constructor; simpl.
  - apply (inv_log _ _ HI).
  - rewrite length_insert. pose proof (inv_budget _ _ HI). lia.
  - rewrite Hhigh. pose proof (inv_sum _ _ HI). lia.
  - intros j tj Hj Hcj. which_thread Hj; simpl in *; [auto|].
    destruct Hlock as [-> | Hown]; [eapply (inv_lock _ _ HI); eauto|].
    rewrite (Inv_alone h0 c i t j tj HI Hi Hown Hj) in Hcj by assumption. discriminate.
  - intros j k tj tk Hj Hk Hcj Hck.
    which_thread Hj; which_thread Hk; simpl in *; try reflexivity.
    + rewrite (Inv_alone h0 c i t k tk HI Hi (Henter Hcj) Hk) in Hck by assumption.
      discriminate.
    + rewrite (Inv_alone h0 c i t j tj HI Hi (Henter Hck) Hj) in Hcj by assumption.
      discriminate.
    + eapply (inv_excl _ _ HI); eauto.
  - intros j tj Hj Hpc. which_thread Hj; simpl in *; [contradiction|].
    rewrite Hhigh. eapply (inv_count _ _ HI); eauto.
  - intros id Hid. destruct (inv_table _ _ HI id Hid) as [Hsome | (j & tj & Hj & Hu & Hreq)].
    + left. auto.
    + destruct (decide (i = j)) as [<-|Hne].
      * assert (tj = t) by congruence. subst tj.
        destruct (Hins Hu) as [(Hu' & Hsame) | Hsome].
        -- right. exists i, (mkThread p' fr'). split_and!; simpl; try assumption.
           ++ apply list_lookup_insert_eq. eapply lookup_lt_Some, Hi.
           ++ congruence.
        -- left. rewrite <- Hreq. assumption.
      * right. exists j, tj. split_and!; try assumption.
        rewrite list_lookup_insert_ne by assumption. assumption.
Qed.

Lemma critical_AtCount p : p = AtCount -> critical p = true.
Proof. intros ->. reflexivity. Qed.

Lemma uninserted_critical p : uninserted p = true -> critical p = true.
Proof. destruct p; simpl; congruence. Qed.

(** Line 185, as long as the counter has room. *)
Lemma Inv_alloc h0 c i fr :
  in_int32 h0 ->
  h0 + Z.of_nat (length (c_threads c)) <= max_int32 ->
  Inv h0 c -> c_threads c !! i = Some (mkThread AtAlloc fr) ->
  Inv h0 (mkConf (c_session c) (c_rLock c)
            (c_allocs c ++ [Req (f_pkt (do_alloc (c_session c) fr))])
            (<[i := mkThread AtCount (do_alloc (c_session c) fr)]> (c_threads c))).
Proof.
  intros Hh0 Hroom HI Hi.
  set (t := mkThread AtAlloc fr) in *.
  set (t' := mkThread AtCount (do_alloc (c_session c) fr)).
  pose proof (sum_list_with_insert todo _ i t t' Hi) as Htodo.
  pose proof (sum_list_with_insert counting _ i t t' Hi) as Hcnt.
  pose proof (sum_list_with_ge todo _ i t Hi) as Hge.
  change (todo t) with 1%nat in *. change (todo t') with 0%nat in *.
  change (counting t) with 0%nat in *. change (counting t') with 1%nat in *.
  assert (Hidle : forall j tj, c_threads c !! j = Some tj -> i <> j ->
                               critical (t_pc tj) = false).
  { intros j tj Hj Hne. eapply (Inv_alone h0 c i t); eauto. }
  assert (Hzero : sum_list_with counting (c_threads c) = 0%nat).
  { apply sum_list_with_zero. intros j tj Hj. unfold counting.
    destruct (decide (i = j)) as [<-|Hne].
    - assert (tj = t) by congruence. subst tj. reflexivity.
    - specialize (Hidle j tj Hj Hne). destruct (t_pc tj); try reflexivity; discriminate. }
  pose proof (inv_budget _ _ HI) as Hb. pose proof (inv_sum _ _ HI) as Hs.
  rewrite Hzero in Hs.
  assert (Hid : Req (f_pkt (do_alloc (c_session c) fr))
                = h0 + 1 + Z.of_nat (length (c_allocs c))).
  { simpl. rewrite add32_succ; unfold in_int32, min_int32, max_int32 in *; lia. }
  constructor; simpl.
  - rewrite length_app. simpl. rewrite Nat.add_1_r, seqZ_S, <- (inv_log _ _ HI).
    f_equal. f_equal. exact Hid.
  - rewrite length_insert, length_app. simpl. lia.
  - rewrite length_app. simpl. lia.
  - intros j tj Hj Hcj. which_thread Hj; simpl in *.
    + eapply (inv_lock _ _ HI i t); eauto.
    + eapply (inv_lock _ _ HI); eauto.
  - intros j k tj tk Hj Hk Hcj Hck.
    which_thread Hj; which_thread Hk; simpl in *; try reflexivity.
    + rewrite (Hidle k tk) in Hck by assumption. discriminate.
    + rewrite (Hidle j tj) in Hcj by assumption. discriminate.
    + eapply (inv_excl _ _ HI); eauto.
  - intros j tj Hj Hpc. which_thread Hj; simpl in *.
    + rewrite add32_succ; unfold in_int32, min_int32, max_int32 in *; lia.
    + apply critical_AtCount in Hpc. rewrite (Hidle j tj) in Hpc by assumption.
      discriminate.
  - intros id [Hold | ->%list_elem_of_singleton]%elem_of_app.
    + destruct (inv_table _ _ HI id Hold) as [Hsome | (j & tj & Hj & Hu & Hreq)];
        [left; assumption|].
      apply uninserted_critical in Hu as Hcj.
      destruct (decide (i = j)) as [<-|Hne].
      * assert (tj = t) by congruence. subst tj. discriminate.
      * rewrite (Hidle j tj) in Hcj by assumption. discriminate.
    + right. exists i, t'. split_and!; try reflexivity.
      apply list_lookup_insert_eq. eapply lookup_lt_Some, Hi.
Qed.

(** Line 186. *)
Lemma Inv_count h0 c i fr :
  Inv h0 c -> c_threads c !! i = Some (mkThread AtCount fr) ->
  Inv h0 (mkConf (do_count (c_session c) fr) (c_rLock c) (c_allocs c)
            (<[i := mkThread AtInsert fr]> (c_threads c))).
Proof.
  intros HI Hi.
  set (t := mkThread AtCount fr) in *.
  set (t' := mkThread AtInsert fr).
  pose proof (sum_list_with_insert todo _ i t t' Hi) as Htodo.
  pose proof (sum_list_with_insert counting _ i t t' Hi) as Hcnt.
  change (todo t) with 0%nat in *. change (todo t') with 0%nat in *.
  change (counting t) with 1%nat in *. change (counting t') with 0%nat in *.
  assert (Hidle : forall j tj, c_threads c !! j = Some tj -> i <> j ->
                               critical (t_pc tj) = false).
  { intros j tj Hj Hne. eapply (Inv_alone h0 c i t); eauto. }
  pose proof (inv_count _ _ HI i t Hi eq_refl) as Hreq. simpl in Hreq.
  constructor; simpl.
  - apply (inv_log _ _ HI).
  - rewrite length_insert. pose proof (inv_budget _ _ HI). lia.
  - pose proof (inv_sum _ _ HI). lia.
  - intros j tj Hj Hcj. which_thread Hj; simpl in *.
    + eapply (inv_lock _ _ HI i t); eauto.
    + eapply (inv_lock _ _ HI); eauto.
  - intros j k tj tk Hj Hk Hcj Hck.
    which_thread Hj; which_thread Hk; simpl in *; try reflexivity.
    + rewrite (Hidle k tk) in Hck by assumption. discriminate.
    + rewrite (Hidle j tj) in Hcj by assumption. discriminate.
    + eapply (inv_excl _ _ HI); eauto.
  - intros j tj Hj Hpc. which_thread Hj; simpl in *; [discriminate|].
    apply critical_AtCount in Hpc. rewrite (Hidle j tj) in Hpc by assumption.
    discriminate.
  - intros id Hid.
    destruct (inv_table _ _ HI id Hid) as [Hsome | (j & tj & Hj & Hu & Hr)];
      [left; assumption|].
    apply uninserted_critical in Hu as Hcj.
    destruct (decide (i = j)) as [<-|Hne].
    + assert (tj = t) by congruence. subst tj.
      right. exists i, t'. split_and!; try reflexivity; try assumption.
      apply list_lookup_insert_eq. eapply lookup_lt_Some, Hi.
    + rewrite (Hidle j tj) in Hcj by assumption. discriminate.
Qed.

(** Every statement of every goroutine keeps the invariant. *)
Lemma Inv_step X h0 c i c' :
  in_int32 h0 ->
  h0 + Z.of_nat (length (c_threads c)) <= max_int32 ->
  Inv h0 c -> step X i c = Some c' ->
  Inv h0 c' /\ length (c_threads c') = length (c_threads c).
Proof.
  intros Hh0 Hroom HI. unfold step.
  destruct (c_threads c !! i) as [[p fr]|] eqn:Hi; [|discriminate].
  pose proof (inv_lock _ _ HI i _ Hi) as Hheld. simpl in Hheld.
  destruct p; simpl.
  - destruct (c_rLock c) eqn:Hfree; [discriminate|]. intros [= <-]. simpl.
    split; [|apply length_insert].
    apply (Inv_move h0 c i _ _ _ _ _ HI Hi); simpl; auto; discriminate.
  - intros [= <-]. simpl. split; [|apply length_insert].
    apply (Inv_move h0 c i _ _ _ _ _ HI Hi); simpl; auto; discriminate.
  - intros [= <-]. simpl. split; [|apply length_insert].
    apply Inv_alloc; assumption.
  - intros [= <-]. simpl. split; [|apply length_insert].
    apply Inv_count; assumption.
  - intros [= <-]. simpl. split; [|apply length_insert].
    apply (Inv_move h0 c i _ _ _ _ _ HI Hi); simpl; auto; try discriminate.
    + intros id Hsome. apply lookup_insert_is_Some.
      destruct (decide (Req (f_pkt fr) = id)); auto.
    + intros _. right. rewrite lookup_insert_eq. eauto.
  - intros [= <-]. simpl. split; [|apply length_insert].
    apply (Inv_move h0 c i _ _ _ _ _ HI Hi); simpl; auto; try discriminate.
    intros id Hsome. apply lookup_alter_is_Some. assumption.
  - intros [= <-]. simpl. split; [|apply length_insert].
    apply (Inv_move h0 c i _ _ _ _ _ HI Hi); simpl; auto; discriminate.
  - destruct (do_send (c_session c) fr) as [s' err] eqn:Hsend. intros [= <-]. simpl.
    split; [|apply length_insert].
    assert (Hs : highest s' = highest (c_session c) /\ reqs s' = reqs (c_session c)).
    { revert Hsend. unfold do_send. destruct (f_err fr).
      - intros [= <- _]. auto.
      - destruct (packer.Pour _ _). intros [= <- _]. auto. }
    destruct Hs as [Hhigh Hreqs].
    apply (Inv_move h0 c i _ _ _ _ _ HI Hi); simpl; auto; try discriminate.
    rewrite Hreqs. auto.
  - discriminate.
Qed.

Lemma Inv_run X h0 schedule :
  forall c,
    in_int32 h0 ->
    h0 + Z.of_nat (length (c_threads c)) <= max_int32 ->
    Inv h0 c -> Inv h0 (run X schedule c).
Proof.
  induction schedule as [|i rest IH]; intros c Hh0 Hroom HI; simpl; [assumption|].
  destruct (step X i c) as [c'|] eqn:Hstep; simpl.
  - destruct (Inv_step X h0 c i c' Hh0 Hroom HI Hstep) as [HI' Hlen].
    apply IH; [assumption | rewrite Hlen; assumption | assumption].
  - apply IH; assumption.
Qed.

(** When nobody holds the lock, every id assigned so far is in the
    table and the counter is the last of them. *)
Lemma Inv_unlocked h0 c :
  Inv h0 c -> c_rLock c = false ->
  highest (c_session c) = h0 + Z.of_nat (length (c_allocs c)) /\
  forall id, id ∈ c_allocs c -> is_Some (reqs (c_session c) !! id).
Proof.
  intros HI Hfree.
  assert (Hidle : forall j tj, c_threads c !! j = Some tj -> critical (t_pc tj) = false).
  { intros j tj Hj. destruct (critical (t_pc tj)) eqn:Hc; [|reflexivity].
    rewrite (inv_lock _ _ HI j tj Hj Hc) in Hfree. discriminate. }
  split.
  - pose proof (inv_sum _ _ HI) as Hs.
    rewrite sum_list_with_zero in Hs; [lia|].
    intros j tj Hj. specialize (Hidle j tj Hj). unfold counting.
    destruct (t_pc tj); try reflexivity; discriminate.
  - intros id Hid.
    destruct (inv_table _ _ HI id Hid) as [Hsome | (j & tj & Hj & Hu & _)]; [assumption|].
    apply uninserted_critical in Hu. rewrite (Hidle j tj Hj) in Hu. discriminate.
Qed.

(** A goroutine that runs alone goes through the eight statements and
    ends where [Do] ends. *)
Lemma run_alone X (st : state) (req : Request) :
  let c := run X (replicate 8 0%nat) (start (session st) [req]) in
  c_session c = session (Do X st req).1.1 /\
  c_rLock c = false /\
  c_allocs c = [st_req (Stream_ (Do X st req).1.2)] /\
  exists fr, c_threads c = [mkThread (Finished (Do X st req).2) fr] /\
             f_req fr = (Do X st req).1.2.
Proof.
  unfold Do, do_locked.
  cbv [run replicate step start c_threads lookup list_lookup t_pc t_frame c_rLock
       c_session c_allocs default from_option id insert list_insert fmap list_fmap
       do_bind app].
  destruct (do_send _ _) as [s2 err]. simpl. eauto 10.
Qed.

End InterleavingFacts.

Lemma seqZ_increasing (l : list Z) m n i j a b :
  l = seqZ m n -> l !! i = Some a -> l !! j = Some b -> (i < j)%nat -> a < b.
Proof.
  intros -> [-> _]%lookup_seqZ [-> _]%lookup_seqZ Hlt. lia.
Qed.

(** C3, as the code has it. As long as the calls keep the counter at or
    below the greatest int32:
    - a call of [Do] is given the counter plus one, leaves the counter at
      that id and the request in the table under it;
    - calls made one after the other are given the consecutive integers
      after the counter, a strictly increasing sequence without repeats,
      and all of them are in the table afterwards;
    - for goroutines interleaved statement by statement under any
      schedule, the ids in the order of their assignment at line 185 are
      again the consecutive integers after the counter, strictly
      increasing and without repeats; at most one goroutine is inside the
      closure; and whenever the lock is free the counter is the last id
      assigned and every id assigned is in the table. *)
Theorem Do_ids_increase_below_max_int32
    (X : Collaborators) (st : state) (requests : list Request) (schedule : list nat) :
  in_int32 (highest (session st)) ->
  highest (session st) + Z.of_nat (length requests) <= max_int32 ->
  let h := highest (session st) in
  let ids := (Do_all X st requests).2 in
  let c := Interleaving.run X schedule (Interleaving.start (session st) requests) in
  let allocs := Interleaving.c_allocs c in
  (forall req, h < max_int32 ->
     st_req (Stream_ (Do X st req).1.2) = h + 1 /\
     highest (session (Do X st req).1.1) = h + 1 /\
     reqs (session (Do X st req).1.1) !! (h + 1) = Some (Do X st req).1.2) /\
  ids = seqZ (h + 1) (Z.of_nat (length requests)) /\
  (forall i j a b, ids !! i = Some a -> ids !! j = Some b -> (i < j)%nat -> a < b) /\
  NoDup ids /\
  (forall id, id ∈ ids -> is_Some (reqs (session (Do_all X st requests).1) !! id)) /\
  allocs = seqZ (h + 1) (Z.of_nat (length allocs)) /\
  (forall i j a b, allocs !! i = Some a -> allocs !! j = Some b -> (i < j)%nat -> a < b) /\
  NoDup allocs /\
  (forall i j ti tj,
     Interleaving.c_threads c !! i = Some ti -> Interleaving.c_threads c !! j = Some tj ->
     Interleaving.critical (Interleaving.t_pc ti) = true ->
     Interleaving.critical (Interleaving.t_pc tj) = true -> i = j) /\
  (Interleaving.c_rLock c = false ->
     highest (Interleaving.c_session c) = h + Z.of_nat (length allocs) /\
     forall id, id ∈ allocs -> is_Some (reqs (Interleaving.c_session c) !! id)).
Proof.
  intros Hrange Hroom h ids c allocs.
  destruct (Do_all_ids X requests st Hrange Hroom) as (Hids & _ & _ & Hin).
  assert (HI : Interleaving.Inv h c).
  { apply InterleavingFacts.Inv_run; [assumption| |].
    - unfold Interleaving.start. simpl. rewrite length_fmap. assumption.
    - apply InterleavingFacts.Inv_start. reflexivity. }
  pose proof (Interleaving.inv_log _ _ HI) as Hlog.
  split_and!.
  - intros req Hlt.
    destruct (Do_allocates X st req) as (-> & Hid & Hhigh & Htab & _).
    rewrite Hid, Hhigh, Htab. unfold h in *.
    rewrite add32_succ by assumption. split_and!; try reflexivity.
    apply lookup_insert_eq.
  - exact Hids.
  - intros i j a b. apply (seqZ_increasing ids _ _ i j a b Hids).
  - fold ids in Hids. rewrite Hids. apply NoDup_seqZ.
  - exact Hin.
  - exact Hlog.
  - intros i j a b. apply (seqZ_increasing allocs _ _ i j a b Hlog).
  - fold allocs in Hlog. rewrite Hlog. apply NoDup_seqZ.
  - apply (Interleaving.inv_excl _ _ HI).
  - apply InterleavingFacts.Inv_unlocked. exact HI.
Qed.

Lemma Do_ids_increase_below_max_int32_witness :
  let requests := [whoami; whoami; whoami] in
  let schedule := [2; 0; 1; 2; 0; 2; 1; 2; 2; 0; 2; 2; 1; 2; 0; 1; 0; 2; 0; 1; 0; 0; 0; 2;
                   0; 1; 0; 1; 1; 1; 1; 1; 1; 1; 0; 0; 0; 0; 0; 0; 0; 0]%nat in
  let c := Interleaving.run willing schedule
             (Interleaving.start (session fresh) requests) in
  in_int32 (highest (session fresh)) /\
  highest (session fresh) + Z.of_nat (length requests) <= max_int32 /\
  (Do_all willing fresh requests).2 = [1; 2; 3] /\
  Interleaving.c_allocs c = [1; 2; 3] /\
  NoDup (Interleaving.c_allocs c).
Proof.
  intros requests schedule c.
  assert (Hrange : in_int32 (highest (session fresh))) by (vm_compute; split; discriminate).
  assert (Hroom : highest (session fresh) + Z.of_nat (length requests) <= max_int32)
    by (vm_compute; discriminate).
  destruct (Do_ids_increase_below_max_int32 willing fresh requests schedule Hrange Hroom)
    as (_ & Hids & _ & _ & _ & Hlog & _ & Hnodup & _).
  split_and!; [exact Hrange | exact Hroom | exact Hids | | exact Hnodup].
  etransitivity; [exact Hlog|]. vm_compute. reflexivity.
Defined.

(** * Further properties of the code *)

(** ** The read at the head of a turn *)

Section Reading.

Variable X : Collaborators.

Lemma serve_packet_keeps ctx st p st' o :
  serve_packet X ctx st p = (st', o) ->
  pkr (session st') = pkr (session st) /\
  highest (session st') = highest (session st) /\
  terminated (session st') = terminated (session st) /\
  exists more, calls st' = calls st ++ more.
Proof.
  unfold serve_packet, serve_close, serve_deliver, fetchRequest, ParseRequest, ask,
    spawn, delete_req, luigi_NewPipe, with_session, with_reqs, errors_Wrap.
  repeat case_match; intros; simplify_eq; simpl; split_and!; try reflexivity;
    first [ by exists [] ; rewrite app_nil_r
          | by eexists; reflexivity
          | by eexists; rewrite <- app_assoc; reflexivity ].
Qed.

Lemma serve_read_keeps_all st st' res :
  serve_read st = (st', res) ->
  packer.r (pkr (session st')) = tail (packer.r (pkr (session st))) /\
  packer.w (pkr (session st')) = packer.w (pkr (session st)) /\
  packer.closing (pkr (session st')) = packer.closing (pkr (session st)) /\
  packer.closed (pkr (session st')) = packer.closed (pkr (session st)) /\
  reqs (session st') = reqs (session st) /\
  highest (session st') = highest (session st) /\
  terminated (session st') = terminated (session st) /\
  calls st' = calls st.
Proof.
  unfold serve_read, packer.Next, ReadPacket.
  destruct (packer.r (pkr (session st))) as [|[q|e] rd]; simpl;
    repeat case_match; intros; simplify_eq; simpl; auto 10.
Qed.

Lemma serve_turn_consumes ctx st st' :
  serve_turn X ctx st = (st', Continue) -> (pending st' < pending st)%nat.
Proof.
  unfold serve_turn. destruct (serve_read st) as [st1 [p|err]] eqn:Hread; [|discriminate].
  intros Hp. apply serve_packet_keeps in Hp as (Hpkr & _).
  pose proof (serve_read_keeps_all _ _ _ Hread) as (Hr & _).
  unfold pending. rewrite Hpkr, Hr.
  revert Hread. unfold serve_read, packer.Next, ReadPacket.
  destruct (packer.r (pkr (session st))) as [|x rd]; simpl; [|lia].
  destruct (packer.closing (pkr (session st))); simpl; repeat case_match; discriminate.
Qed.

(** Induction along the turns of [Serve]. *)
Lemma Serve_turns ctx (P : state -> state * option error -> Prop) :
  (forall st st' err, serve_turn X ctx st = (st', Return err) -> P st (st', err)) ->
  (forall st st', serve_turn X ctx st = (st', Continue) ->
                  P st' (Serve X ctx st') -> P st (Serve X ctx st')) ->
  forall st, P st (Serve X ctx st).
Proof.
  intros Hret Hgo st.
  remember (pending st) as n eqn:Hn. revert st Hn.
  induction n as [n IH] using lt_wf_ind. intros st ->.
  destruct (serve_turn X ctx st) as [st' [|err]] eqn:Hturn.
  - rewrite (Serve_continue X ctx st st' Hturn). apply (Hgo st st' Hturn).
    apply (IH (pending st')); [apply (serve_turn_consumes ctx st st' Hturn) | reflexivity].
  - rewrite (Serve_return X ctx st st' err Hturn). apply (Hret st st' err Hturn).
Qed.

Lemma serve_turn_keeps ctx st st' o :
  serve_turn X ctx st = (st', o) ->
  packer.w (pkr (session st')) = packer.w (pkr (session st)) /\
  packer.closing (pkr (session st')) = packer.closing (pkr (session st)) /\
  packer.closed (pkr (session st')) = packer.closed (pkr (session st)) /\
  highest (session st') = highest (session st) /\
  terminated (session st') = terminated (session st) /\
  exists more, calls st' = calls st ++ more.
Proof.
  unfold serve_turn. destruct (serve_read st) as [st1 [p|err]] eqn:Hread.
  - intros Hp. apply serve_packet_keeps in Hp as (Hpkr & Hh & Ht & more & Hc).
    pose proof (serve_read_keeps_all _ _ _ Hread) as (_ & Hw & Hcl & Hcd & _ & Hh1 & Ht1 & Hc1).
    rewrite Hpkr, Hh, Ht, Hc. split_and!; try congruence. exists more. congruence.
  - intros [= <- <-].
    pose proof (serve_read_keeps_all _ _ _ Hread) as (_ & Hw & Hcl & Hcd & _ & Hh1 & Ht1 & Hc1).
    split_and!; try congruence. exists []. rewrite app_nil_r. congruence.
Qed.

(** X1. [Serve] only reads. Whatever the connection holds and whatever
    the collaborators answer, the session it leaves has the counter and
    the termination flag it began with, the connection has only been
    read forward, and the log of collaborator calls has only grown. The
    loop itself never writes to the transport or closes it: in a run in
    which it closed no Stream, the writer and the closing state are as
    they were. *)
Theorem Serve_only_reads ctx st :
  let st' := (Serve X ctx st).1 in
  highest (session st') = highest (session st) /\
  terminated (session st') = terminated (session st) /\
  (pending st' <= pending st)%nat /\
  exists more,
    calls st' = calls st ++ more /\
    (Forall (fun c => through_stream c = false) more ->
     packer.w (pkr (session st')) = packer.w (pkr (session st)) /\
     packer.closing (pkr (session st')) = packer.closing (pkr (session st)) /\
     packer.closed (pkr (session st')) = packer.closed (pkr (session st))).
Proof.
  cut (highest (session (Serve X ctx st).1) = highest (session st) /\
       terminated (session (Serve X ctx st).1) = terminated (session st) /\
       packer.w (pkr (session (Serve X ctx st).1)) = packer.w (pkr (session st)) /\
       packer.closing (pkr (session (Serve X ctx st).1)) = packer.closing (pkr (session st)) /\
       packer.closed (pkr (session (Serve X ctx st).1)) = packer.closed (pkr (session st)) /\
       (pending (Serve X ctx st).1 <= pending st)%nat /\
       exists more, calls (Serve X ctx st).1 = calls st ++ more).
  { intros (Hh & Ht & Hw & Hcl & Hcd & Hp & more & Hc). cbv zeta.
    split_and!; try assumption. exists more. split; [exact Hc|]. intros _. auto. }
  apply (Serve_turns ctx (fun st res =>
    highest (session res.1) = highest (session st) /\
    terminated (session res.1) = terminated (session st) /\
    packer.w (pkr (session res.1)) = packer.w (pkr (session st)) /\
    packer.closing (pkr (session res.1)) = packer.closing (pkr (session st)) /\
    packer.closed (pkr (session res.1)) = packer.closed (pkr (session st)) /\
    (pending res.1 <= pending st)%nat /\
    exists more, calls res.1 = calls st ++ more)).
  - intros s s' err Hturn. simpl.
    pose proof (serve_turn_keeps ctx s s' _ Hturn) as (Hw & Hcl & Hcd & Hh & Ht & Hc).
    split_and!; auto.
    revert Hturn. unfold serve_turn.
    destruct (serve_read s) as [s1 [p|e]] eqn:Hread.
    + intros Hp. apply serve_packet_keeps in Hp as (Hpkr & _).
      pose proof (serve_read_keeps_all _ _ _ Hread) as (Hr & _).
      unfold pending. rewrite Hpkr, Hr. destruct (packer.r (pkr (session s))); simpl; lia.
    + intros [= <- <-]. pose proof (serve_read_keeps_all _ _ _ Hread) as (Hr & _).
      unfold pending. rewrite Hr. destruct (packer.r (pkr (session s))); simpl; lia.
  - intros s s' Hturn (Hh & Ht & Hw & Hcl & Hcd & Hp & more & Hc).
    pose proof (serve_turn_keeps ctx s s' _ Hturn) as (Hw' & Hcl' & Hcd' & Hh' & Ht' & more' & Hc').
    pose proof (serve_turn_consumes ctx s s' Hturn).
    split_and!; try congruence; [lia|].
    exists (more' ++ more). rewrite Hc, Hc', app_assoc. reflexivity.
Qed.

End Reading.

(** ** The ends of [Serve] *)

Section Ending.

Variable X : Collaborators.

(** X2. At the physical end of the connection, where the reader has
    nothing left, [Serve] returns nil and leaves the session exactly as
    it was. *)
Theorem Serve_end_of_connection ctx st :
  packer.r (pkr (session st)) = [] -> Serve X ctx st = (st, None).
Proof.
  intros Hr. apply Serve_return. unfold serve_turn, serve_read, packer.Next.
  destruct st as [[[rd w c k] rq h t] cl np]. simpl in *. subst rd. simpl.
  destruct c; reflexivity.
Qed.

(** X3. A read error that is neither an end-of-file nor an end-of-stream,
    met while the packer is not closing and the session is not
    terminating, ends [Serve] with that error, wrapped by [Next] and by
    [Serve]; the packets behind it stay unread and the table, the counter
    and the log are as before. *)
Theorem Serve_read_failure ctx st e rd :
  packer.r (pkr (session st)) = inr e :: rd ->
  Cause e <> io_EOF -> Cause e <> luigi_EOS ->
  packer.closing (pkr (session st)) = false ->
  terminated (session st) = false ->
  exists st',
    Serve X ctx st
      = (st', Some (errors_Wrapped (errors_Wrapped e "ReadPacket failed.")
                      "error reading from packer source")) /\
    packer.r (pkr (session st')) = rd /\
    reqs (session st') = reqs (session st) /\
    highest (session st') = highest (session st) /\
    calls st' = calls st.
Proof.
  intros Hr Heof Heos Hcl Ht.
  destruct (serve_read st) as [st' res] eqn:Hread.
  pose proof (serve_read_keeps_all _ _ _ Hread) as (Hrd & _ & _ & _ & Hreqs & Hh & _ & Hc).
  exists st'. rewrite Hrd, Hr. split_and!; auto.
  apply Serve_return. unfold serve_turn. rewrite Hread.
  revert Hread. unfold serve_read, packer.Next. rewrite Hr, Hcl, Ht. simpl.
  destruct (Cause e) eqn:Hce; try congruence;
    unfold luigi_IsEOS; simpl; rewrite Hce; intros [= <- <-]; reflexivity.
Qed.

(** X4. Once [Terminate] has run, a read error of any kind ends [Serve]
    without an error: [Terminate] sets the termination flag and closes the
    packer, and the read that fails afterwards resolves as the end of the
    stream. [Terminate] itself returns what closing the connection
    returned and touches neither the table nor the counter. *)
Theorem Terminate_makes_Serve_graceful ctx st conn st' res e rd :
  Terminate st conn = Some (st', res) ->
  packer.r (pkr (session st)) = inr e :: rd ->
  res = conn /\
  terminated (session st') = true /\
  packer.closing (pkr (session st')) = true /\
  reqs (session st') = reqs (session st) /\
  highest (session st') = highest (session st) /\
  (Serve X ctx st').2 = None.
Proof.
  unfold Terminate, packer.Close. simpl.
  destruct (packer.closing (pkr (session st))) eqn:Hcl; [discriminate|].
  intros [= <- <-] Hr. simpl. split_and!; try reflexivity.
  match goal with |- (Serve X ctx ?s).2 = None =>
    assert (Hturn : exists s', serve_turn X ctx s = (s', Return None))
  end.
  { unfold serve_turn, serve_read, packer.Next. simpl. rewrite Hr. simpl. eauto. }
  destruct Hturn as [s' Hturn]. rewrite (Serve_return X ctx _ s' None Hturn). reflexivity.
Qed.

End Ending.

(** X5. [Terminate] succeeds on a session whose packer is not closing,
    and a second [Terminate] panics: the closing channel is closed again
    without a test. *)
Theorem Terminate_twice_panics st conn conn' :
  packer.closing (pkr (session st)) = false ->
  exists st', Terminate st conn = Some (st', conn) /\ Terminate st' conn' = None.
Proof.
  intros Hcl. unfold Terminate, packer.Close. simpl. rewrite Hcl.
  eexists. split; reflexivity.
Qed.

(** ** The request table *)

Section Table.

Variable X : Collaborators.

Lemma ParseRequest_keeps st p st' res :
  ParseRequest X st p = (st', res) ->
  session st' = session st /\ calls st' = calls st.
Proof.
  unfold ParseRequest, luigi_NewPipe.
  repeat case_match; intros; simplify_eq; auto.
Qed.

Lemma fetchRequest_new st p st1 req :
  reqs (session st) !! Req p = None ->
  ParseRequest X st p = (st1, inl req) ->
  exists st2,
    fetchRequest X st p = (st2, inl (req, true)) /\
    reqs (session st2) = <[Req p := req]> (reqs (session st)) /\
    calls st2 = calls st ++ [go_HandleCall req] /\
    highest (session st2) = highest (session st) /\
    fetchRequest X st2 p = (st2, inl (req, false)).
Proof.
  intros Hnone Hparse.
  pose proof (ParseRequest_keeps _ _ _ _ Hparse) as (Hs & Hc).
  eexists. unfold fetchRequest at 1. rewrite Hnone, Hparse.
  split; [reflexivity|]. simpl. rewrite Hs, Hc. split_and!; try reflexivity.
  unfold fetchRequest. simpl. rewrite lookup_insert_eq. reflexivity.
Qed.

(** X6. The first packet of a call the table does not know yet, when it
    parses: [fetchRequest] puts the parsed request into the table under
    the packet's id, starts the handler on it once, and reports it as
    new; asked again for the same packet it finds that request, reports it
    as known, and changes nothing. *)
Theorem fetchRequest_registers_once st p st1 req :
  reqs (session st) !! Req p = None ->
  ParseRequest X st p = (st1, inl req) ->
  exists st2,
    fetchRequest X st p = (st2, inl (req, true)) /\
    reqs (session st2) = <[Req p := req]> (reqs (session st)) /\
    calls st2 = calls st ++ [go_HandleCall req] /\
    highest (session st2) = highest (session st) /\
    fetchRequest X st2 p = (st2, inl (req, false)).
Proof. apply fetchRequest_new. Qed.

Lemma fetchRequest_bad st p st1 err :
  reqs (session st) !! Req p = None ->
  ParseRequest X st p = (st1, inr err) ->
  fetchRequest X st p = (st1, inr (errors_Wrapped err "error parsing request")) /\
  session st1 = session st /\ calls st1 = calls st.
Proof.
  intros Hnone Hparse.
  pose proof (ParseRequest_keeps _ _ _ _ Hparse) as (Hs & Hc).
  unfold fetchRequest. rewrite Hnone, Hparse. auto.
Qed.

(** X7. The first packet of an unknown call, when it does not parse:
    [fetchRequest] returns the parse error wrapped, and the session and
    the log are as before; no handler is started. *)
Theorem fetchRequest_failure_changes_nothing st p st1 err :
  reqs (session st) !! Req p = None ->
  ParseRequest X st p = (st1, inr err) ->
  fetchRequest X st p = (st1, inr (errors_Wrapped err "error parsing request")) /\
  session st1 = session st /\ calls st1 = calls st.
Proof. apply fetchRequest_bad. Qed.

(** X8. [finish] takes the id out of the table before it sends, and the
    removal stands whether or not the send succeeds: afterwards the id is
    absent, every other entry and the counter are as before, and the
    result is the result of the transport's [Pour], wrapped. *)
Theorem finish_removes_before_sending st id :
  let sent := packer.Pour (pkr (session st)) (packer.VPacket (newEndOkayPacket id)) in
  reqs (session (finish st id).1) !! id = None /\
  (forall id', id' <> id ->
     reqs (session (finish st id).1) !! id' = reqs (session st) !! id') /\
  highest (session (finish st id).1) = highest (session st) /\
  pkr (session (finish st id).1) = sent.1 /\
  (finish st id).2 = errors_Wrap sent.2 "error pouring done message".
Proof.
  unfold finish. cbn -[packer.Pour].
  destruct (packer.Pour (pkr (session st)) (packer.VPacket (newEndOkayPacket id)))
    as [pkr' err]. simpl. split_and!; try reflexivity.
  - apply lookup_delete_eq.
  - intros id' Hne. apply lookup_delete_ne. congruence.
Qed.

(** X9. A call that is issued and then finished leaves the table as it
    found it, provided the id it was given was free; the counter is not
    taken back. *)
Theorem Do_then_finish_restores_table st req :
  let id := add32 (highest (session st)) 1 in
  reqs (session st) !! id = None ->
  reqs (session (finish (Do X st req).1.1 id).1) = reqs (session st) /\
  highest (session (finish (Do X st req).1.1 id).1) = id.
Proof.
  intros id Hfree.
  destruct (Do_allocates X st req) as (_ & _ & Hhigh & Htab & _).
  unfold finish, delete_req. cbn -[packer.Pour Do].
  destruct (packer.Pour _ _) as [pkr' err]. simpl.
  split; [|exact Hhigh].
  fold id in Htab. rewrite Htab. apply delete_insert_id. exact Hfree.
Qed.

(** X10. [Do] with the counter below the greatest int32 takes a slot
    that nothing occupies and disturbs no other entry, as long as no id in
    the table lies above the counter; and it leaves the table in that
    state again. *)
Theorem Do_takes_a_free_id st req :
  ids_below_counter (session st) ->
  highest (session st) < max_int32 ->
  let id := highest (session st) + 1 in
  reqs (session st) !! id = None /\
  is_Some (reqs (session (Do X st req).1.1) !! id) /\
  (forall id', id' <> id ->
     reqs (session (Do X st req).1.1) !! id' = reqs (session st) !! id') /\
  ids_below_counter (session (Do X st req).1.1).
Proof.
  intros [Hrange Hbelow] Hroom id.
  destruct (Do_allocates X st req) as (_ & _ & Hhigh & Htab & _).
  assert (Hid : add32 (highest (session st)) 1 = id).
  { apply add32_succ; [|assumption]. unfold in_int32, min_int32, max_int32 in *. lia. }
  rewrite Hid in Hhigh, Htab.
  assert (Hfree : reqs (session st) !! id = None).
  { destruct (reqs (session st) !! id) eqn:Hl; [|reflexivity].
    specialize (Hbelow id ltac:(eauto)). unfold id in Hbelow. lia. }
  split_and!.
  - exact Hfree.
  - rewrite Htab, lookup_insert_eq. eauto.
  - intros id' Hne. rewrite Htab. apply lookup_insert_ne. congruence.
  - split; [rewrite Hhigh; unfold id, max_int32 in *; lia|].
    intros id' Hsome. rewrite Hhigh. rewrite Htab in Hsome.
    apply lookup_insert_is_Some in Hsome as [<-|[_ Hold]]; [lia|].
    specialize (Hbelow id' Hold). unfold id. lia.
Qed.

Lemma ParseRequest_negative st p st' req :
  ParseRequest X st p = (st', inl req) -> Req p < 0.
Proof.
  unfold ParseRequest.
  destruct (Flag_Get (Flag_ p) FlagJSON); simpl; [|discriminate].
  destruct (Z.geb_spec (Req p) 0); [discriminate|]. intros _. lia.
Qed.

Lemma serve_packet_ids ctx st p st' o :
  serve_packet X ctx st p = (st', o) ->
  forall id, is_Some (reqs (session st') !! id) ->
             is_Some (reqs (session st) !! id) \/ id < 0.
Proof.
  intros Hp id.
  assert (Hdel : forall (m : gmap Z Request) k, is_Some (delete k m !! id) -> is_Some (m !! id)).
  { intros m k [x Hx]. apply lookup_delete_Some in Hx as [_ Hx]. eauto. }
  revert Hp.
  unfold serve_packet, serve_close, serve_deliver, fetchRequest, ask,
    spawn, delete_req, with_session, with_reqs, errors_Wrap.
  repeat case_match; intros; simplify_eq; simpl in *; eauto;
    try match goal with
        | H : ParseRequest _ _ _ = _ |- _ =>
            pose proof (ParseRequest_keeps _ _ _ _ H) as (Hs & _);
            try (pose proof (ParseRequest_negative _ _ _ _ H) as Hneg)
        end;
    try (rewrite Hs in *; auto; fail).
  all: try match goal with
       | H : is_Some (<[_ := _]> _ !! _) |- _ =>
           apply lookup_insert_is_Some in H as [<-|[_ H]]; [right; assumption|]
       end.
  all: try (rewrite Hs in *; auto).
Qed.

(** X11. [Serve] keeps every id in the table at or below the counter:
    what it adds are ids of calls opened by the remote, which are
    negative, and otherwise it only removes. Together with X10, no call
    of [Do] that follows overwrites a request still in the table. *)
Theorem Serve_keeps_ids_below_counter ctx st :
  ids_below_counter (session st) ->
  ids_below_counter (session (Serve X ctx st).1).
Proof.
  apply (Serve_turns X ctx (fun st res =>
    ids_below_counter (session st) -> ids_below_counter (session res.1))).
  - intros s s' err Hturn [Hrange Hbelow]. simpl.
    pose proof (serve_turn_keeps X ctx s s' _ Hturn) as (_ & _ & _ & Hh & _).
    split; [rewrite Hh; assumption|]. intros id Hsome. rewrite Hh.
    revert Hturn. unfold serve_turn.
    destruct (serve_read s) as [s1 [p|e]] eqn:Hread.
    + intros Hp. pose proof (serve_read_keeps_all _ _ _ Hread) as (_ & _ & _ & _ & Hr & _).
      destruct (serve_packet_ids ctx s1 p s' _ Hp id Hsome) as [Hold|Hneg]; [|lia].
      rewrite Hr in Hold. auto.
    + intros [= <- _]. pose proof (serve_read_keeps_all _ _ _ Hread) as (_ & _ & _ & _ & Hr & _).
      rewrite Hr in Hsome. auto.
  - intros s s' Hturn IH [Hrange Hbelow]. apply IH.
    pose proof (serve_turn_keeps X ctx s s' _ Hturn) as (_ & _ & _ & Hh & _).
    split; [rewrite Hh; assumption|]. intros id Hsome. rewrite Hh.
    revert Hturn. unfold serve_turn.
    destruct (serve_read s) as [s1 [p|e]] eqn:Hread; [|discriminate].
    intros Hp. pose proof (serve_read_keeps_all _ _ _ Hread) as (_ & _ & _ & _ & Hr & _).
    destruct (serve_packet_ids ctx s1 p s' _ Hp id Hsome) as [Hold|Hneg]; [|lia].
    rewrite Hr in Hold. auto.
Qed.

End Table.

(** ** First packets of inbound calls *)

Section FirstPackets.

Variable X : Collaborators.

(** X12. A packet whose id is not in the table and which parses as a
    request opens a call: the request is registered under the id, the
    handler is started on it, and the loop goes on. The packet itself is
    not poured into the new request's pipe: the only call that leaves the
    session in this turn is the start of the handler. *)
Theorem Serve_registers_new_call ctx st st1 p st2 req :
  serve_read st = (st1, inl p) ->
  reqs (session st1) !! Req p = None ->
  ParseRequest X st1 p = (st2, inl req) ->
  exists st3,
    Serve X ctx st = Serve X ctx st3 /\
    reqs (session st3) = <[Req p := req]> (reqs (session st1)) /\
    calls st3 = calls st1 ++ [go_HandleCall req] /\
    pkr (session st3) = pkr (session st1).
Proof.
  intros Hread Hnone Hparse.
  destruct (fetchRequest_new X st1 p st2 req Hnone Hparse)
    as (st3 & Hfetch & Htab & Hcalls & _).
  exists st3. rewrite (Serve_packet X ctx st st1 p Hread).
  unfold serve_packet, serve_deliver. rewrite Hnone, Hfetch.
  split_and!; try assumption; [destruct (Flag_Get _ _); reflexivity|].
  pose proof (ParseRequest_keeps X _ _ _ _ Hparse) as (Hs & _).
  revert Hfetch. unfold fetchRequest. rewrite Hnone, Hparse.
  intros [= <-]. simpl. rewrite Hs. reflexivity.
Qed.

(** X13. A packet whose id is not in the table and which does not parse
    as a request ends the whole loop: [Serve] returns the parse error,
    wrapped by [fetchRequest] and by [Serve], with the table and the log
    as they were; this holds whether or not the packet is flagged
    EndErr. *)
Theorem Serve_unparsable_first_packet_is_fatal ctx st st1 p st2 err :
  serve_read st = (st1, inl p) ->
  reqs (session st1) !! Req p = None ->
  ParseRequest X st1 p = (st2, inr err) ->
  Serve X ctx st
    = (st2, Some (errors_Wrapped (errors_Wrapped err "error parsing request")
                    "error getting request")) /\
  session st2 = session st1 /\ calls st2 = calls st1.
Proof.
  intros Hread Hnone Hparse.
  destruct (fetchRequest_bad X st1 p st2 err Hnone Hparse)
    as (Hfetch & Hs & Hc).
  rewrite (Serve_packet X ctx st st1 p Hread).
  unfold serve_packet, serve_deliver. rewrite Hnone, Hfetch.
  split_and!; try assumption. destruct (Flag_Get _ _); reflexivity.
Qed.

End FirstPackets.

(** ** What goes over the transport *)

Lemma neg32_involutive z : in_int32 z -> neg32 (neg32 z) = z.
Proof.
  intros Hz. destruct (Z.eq_dec z min_int32) as [->|Hne]; [reflexivity|].
  rewrite (neg32_opp z Hz Hne).
  rewrite neg32_opp; unfold in_int32, min_int32, max_int32 in *; lia.
Qed.

(** X14. The sign flip is its own inverse: a packet that passes through
    [Next] on one side and, sent back as it was received, through [Next]
    on the other side, arrives with the id, flags and body it started
    with. *)
Theorem Next_twice_restores (p : Packet) (w1 w2 : Writer) (c1 c2 : bool) (k1 k2 : nat) :
  in_int32 (Req p) ->
  exists q,
    (packer.Next (packer.mk [inl p] w1 c1 k1)).2 = inl q /\
    (packer.Next (packer.mk [inl q] w2 c2 k2)).2 = inl p.
Proof.
  intros Hrange. unfold packer.Next. simpl. rewrite !andb_false_r. simpl.
  eexists. split; [reflexivity|]. simpl.
  rewrite neg32_involutive by assumption. destruct p; reflexivity.
Qed.

(** X15. Closing the packer silences the transport: [Close] returns what
    the connection's close returned, and from then on [Pour] of a packet
    returns nil whatever the write did, [Next] returns a packet or the
    end-of-stream sentinel and never another error, a value that is not a
    packet is still refused without a write, and a second [Close]
    panics. *)
Theorem Close_silences_transport (pkr pkr' : packer.t) (conn res : option error) :
  packer.Close pkr conn = Some (pkr', res) ->
  res = conn /\
  (forall p, (packer.Pour pkr' (packer.VPacket p)).2 = None) /\
  (forall ty, exists e, packer.Pour pkr' (packer.VOther ty) = (pkr', Some e)) /\
  (forall rd x, packer.r pkr' = x :: rd ->
     (exists p, x = inl p /\
                (packer.Next pkr').2 = inl (mkPacket (Flag_ p) (neg32 (Req p)) (Body p))) \/
     (exists e, x = inr e /\ (packer.Next pkr').2 = inr luigi_EOS)) /\
  (forall conn', packer.Close pkr' conn' = None).
Proof.
  unfold packer.Close. destruct (packer.closing pkr) eqn:Hcl; [discriminate|].
  intros [= <- <-]. split_and!; try reflexivity.
  - intros p. unfold packer.Pour. simpl. destruct (WritePacket _ _). reflexivity.
  - intros ty. simpl. eauto.
  - intros rd [p|e] Hr; simpl in Hr; unfold packer.Next; simpl; rewrite Hr; simpl; eauto.
Qed.

Section Sending.

Variable X : Collaborators.

(** X16. When the envelope encodes, [Do] hands exactly one packet to the
    codec's writer: the one carrying the new id and the encoded body. Its
    result is the writer's result, or nil whenever the packer is closing;
    in both cases the request is registered. *)
Theorem Do_writes_one_packet (st : state) (req : Request) (body : list byte) :
  json_Marshal X (fill_Args req) = inl body ->
  let id := add32 (highest (session st)) 1 in
  let wr := packer.w (pkr (session st)) in
  let st' := (Do X st req).1.1 in
  Req (call_packet X req id) = id /\ Body (call_packet X req id) = body /\
  written (packer.w (pkr (session st'))) = written wr ++ [call_packet X req id] /\
  (Do X st req).2
    = (if packer.closing (pkr (session st)) then None
       else (WritePacket wr (call_packet X req id)).2) /\
  is_Some (reqs (session st') !! id).
Proof.
  intros Hm id wr st'.
  destruct (Do_allocates X st req) as (_ & _ & _ & Htab & _).
  fold id st' in Htab. rewrite Htab, lookup_insert_eq.
  assert (Hbody : Body (call_packet X req id) = body).
  { unfold call_packet. rewrite Hm. reflexivity. }
  split_and!; [reflexivity | exact Hbody | | | eauto].
  - unfold st', Do. rewrite do_locked_spec. unfold do_send.
    cbn [f_err f_pkt f_req pkr]. rewrite Hm. fold id.
    unfold packer.Pour. cbn [pkr]. fold wr.
    unfold WritePacket. destruct (outcomes wr), (packer.closing (pkr (session st)));
      reflexivity.
  - unfold Do. rewrite do_locked_spec. unfold do_send.
    cbn [f_err f_pkt f_req pkr]. rewrite Hm. fold id.
    unfold packer.Pour. cbn [pkr]. fold wr.
    unfold WritePacket. destruct (outcomes wr), (packer.closing (pkr (session st)));
      reflexivity.
Qed.

Lemma call_packet_flags (req : Request) (id : Z) :
  Flag_Get (Flag_ (call_packet X req id)) FlagJSON = true /\
  Flag_Get (Flag_ (call_packet X req id)) FlagEndErr = false /\
  Flag_Get (Flag_ (call_packet X req id)) FlagStream
    = negb (String.eqb (Type_ req) "async").
Proof.
  unfold call_packet, CallType_Flags. rewrite fill_Args_Type. simpl.
  destruct (String.eqb (Type_ req) "async"); split_and!; reflexivity.
Qed.

(** X17. The two ends of a call agree. For each of the four call shapes,
    if the callee's decoder reads back the envelope that the caller's
    encoder wrote, then the packet [Do] sends, once the callee's [Next]
    has flipped its id, is accepted by the callee's [ParseRequest]; the
    request it yields has the caller's type, method and arguments, is
    bound to the negated id, and its two directions are the caller's
    exchanged. *)
Theorem callee_mirrors_caller (st peer : state) (wr : Writer)
    (t : string) (ins outs : bool) (p : pipe) (tp : option string)
    (method : list string) (args : option (list arg)) (body : list byte) :
  (t, ins, outs) ∈ call_shapes ->
  let req := call_request t ins outs p tp method args in
  let id := add32 (highest (session st)) 1 in
  json_Marshal X (fill_Args req) = inl body ->
  json_Unmarshal_Request X body = inl (mkEnvelope t method (Args (fill_Args req))) ->
  0 < id ->
  let caller := Stream_ (Do X st req).1.2 in
  st_req caller = id /\ st_inStream caller = ins /\ st_outStream caller = outs /\
  exists got peer' req',
    (packer.Next (packer.NewPacker [inl (call_packet X req id)] wr)).2 = inl got /\
    Req got = - id /\
    ParseRequest X peer got = (peer', inl req') /\
    Type_ req' = t /\ Method req' = method /\ Args req' = Args (fill_Args req) /\
    st_req (Stream_ req') = - id /\
    st_inStream (Stream_ req') = outs /\ st_outStream (Stream_ req') = ins.
Proof.
  intros Hshape req id Hm Hun Hpos caller.
  destruct (Do_allocates X st req) as (Hreq & _).
  unfold caller. rewrite Hreq. split_and!; try reflexivity.
  { unfold req, call_request, fill_Args. simpl. destruct args; reflexivity. }
  { unfold req, call_request, fill_Args. simpl. destruct args; reflexivity. }
  assert (Hneg : neg32 id = - id).
  { apply neg32_opp; [apply wrap32_range|]. unfold min_int32. lia. }
  destruct (call_packet_flags req id) as (Hjson & _ & Hstream).
  assert (Hbody : Body (call_packet X req id) = body).
  { unfold call_packet. rewrite Hm. reflexivity. }
  assert (Hty : Type_ req = t) by reflexivity. rewrite Hty in Hstream.
  set (got := mkPacket (Flag_ (call_packet X req id)) (- id) body).
  assert (Hnext : (packer.Next (packer.NewPacker [inl (call_packet X req id)] wr)).2
                  = inl got).
  { assert (Hid : Req (call_packet X req id) = id) by reflexivity.
    unfold packer.Next. cbn -[call_packet]. rewrite Hid, Hneg, Hbody. reflexivity. }
  assert (Hparse : exists peer' req',
             ParseRequest X peer got = (peer', inl req') /\
             Type_ req' = t /\ Method req' = method /\ Args req' = Args (fill_Args req) /\
             st_req (Stream_ req') = - id /\
             st_inStream (Stream_ req') = outs /\ st_outStream (Stream_ req') = ins).
  { unfold ParseRequest. cbn [got Flag_ Req Body]. rewrite Hjson, Hun, Hstream.
    cbn [negb]. destruct (Z.geb_spec (- id) 0) as [Hge|_]; [lia|].
    unfold call_shapes in Hshape.
    repeat (apply elem_of_cons in Hshape as [[= -> -> ->]|Hshape]);
      [..|inversion Hshape];
      simpl; do 2 eexists; split_and!; reflexivity. }
  destruct Hparse as (peer' & req' & Hparse).
  exists got, peer', req'. split; [exact Hnext|]. split; [reflexivity|]. exact Hparse.
Qed.

End Sending.

(** ** The call shapes *)

Section Shapes.

Variable X : Collaborators.




End Shapes.

(** ** Progress of interleaved calls *)

Section Progress.

Import Interleaving.

Variable X : Collaborators.

Lemma holder_update c i t s' al p' fr' :
  lock_has_holder c -> c_threads c !! i = Some t ->
  (critical (t_pc t) = true -> critical p' = true) ->
  lock_has_holder (mkConf s' (c_rLock c) al (<[i := mkThread p' fr']> (c_threads c))).
Proof.
  intros Hh Hi Hkeep Hlock. simpl in *.
  destruct (Hh Hlock) as (j & tj & Hj & Hc).
  destruct (decide (i = j)) as [<-|Hne].
  - exists i, (mkThread p' fr'). split.
    + apply list_lookup_insert_eq. eapply lookup_lt_Some, Hi.
    + simpl. apply Hkeep. congruence.
  - exists j, tj. split; [|assumption].
    rewrite list_lookup_insert_ne by assumption. assumption.
Qed.

Lemma holder_step i c c' :
  lock_has_holder c -> step X i c = Some c' -> lock_has_holder c'.
Proof.
  intros Hh. unfold step.
  destruct (c_threads c !! i) as [[p fr]|] eqn:Hi; [|discriminate].
  destruct p; simpl.
  - destruct (c_rLock c) eqn:Hfree; [discriminate|]. intros [= <-] _. simpl.
    exists i, (mkThread AtMarshal fr). split; [|reflexivity].
    apply list_lookup_insert_eq. eapply lookup_lt_Some, Hi.
  - intros [= <-]. eapply holder_update; eauto.
  - intros [= <-]. eapply holder_update; eauto.
  - intros [= <-]. eapply holder_update; eauto.
  - intros [= <-]. eapply holder_update; eauto.
  - intros [= <-]. eapply holder_update; eauto.
  - intros [= <-]. intros Hlock. discriminate.
  - destruct (do_send (c_session c) fr) as [s' err]. intros [= <-].
    eapply holder_update; eauto.
  - discriminate.
Qed.

Lemma holder_run schedule :
  forall c, lock_has_holder c -> lock_has_holder (run X schedule c).
Proof.
  induction schedule as [|i rest IH]; intros c Hh; simpl; [assumption|].
  destruct (step X i c) as [c'|] eqn:Hstep; simpl; apply IH; [|assumption].
  eapply holder_step; eauto.
Qed.

(** X20. Calls of [Do] cannot deadlock on [rLock]. In every
    configuration that goroutines running [Do] reach under any schedule,
    if some goroutine has not returned then some goroutine can take its
    next statement; and once all have returned the lock is free. *)
Theorem Do_never_deadlocks (s : rpc) (requests : list Request) (schedule : list nat) :
  let c := run X schedule (start s requests) in
  ((exists k t, c_threads c !! k = Some t /\ forall err, t_pc t <> Finished err) ->
   exists i c', step X i c = Some c') /\
  ((forall k t, c_threads c !! k = Some t -> exists err, t_pc t = Finished err) ->
   c_rLock c = false).
Proof.
  intros c.
  assert (Hh : lock_has_holder c).
  { apply holder_run. intros Hlock. discriminate. }
  assert (Hmove : forall j tj, c_threads c !! j = Some tj ->
            critical (t_pc tj) = true \/ t_pc tj = AtSend ->
            exists c', step X j c = Some c').
  { intros j [p fr] Hj Hp. unfold step. rewrite Hj. simpl in *.
    destruct p; simpl in *; destruct Hp as [Hp|Hp]; try discriminate; eauto;
      try (destruct (do_bind _ _); eauto); try (destruct (do_send _ _); eauto). }
  split.
  - intros (k & [p fr] & Hk & Hrun). simpl in Hrun.
    destruct (critical p) eqn:Hc.
    { destruct (Hmove k _ Hk) as [c' Hc']; eauto. }
    destruct p; try discriminate.
    + destruct (c_rLock c) eqn:Hlock.
      * destruct (Hh Hlock) as (j & tj & Hj & Hcj).
        destruct (Hmove j tj Hj) as [c' Hc']; eauto.
      * exists k. unfold step. rewrite Hk. simpl. rewrite Hlock. eauto.
    + destruct (Hmove k _ Hk) as [c' Hc']; eauto.
    + destruct (Hrun err). reflexivity.
  - intros Hdone. destruct (c_rLock c) eqn:Hlock; [|reflexivity].
    destruct (Hh Hlock) as (j & tj & Hj & Hcj).
    destruct (Hdone j tj Hj) as [err Herr]. rewrite Herr in Hcj. discriminate.
Qed.

End Progress.

(** ** Runs of the properties above *)

Lemma ids_below_counter_Handle (p : packer.t) : ids_below_counter (session (Handle p)).
Proof.
  split; [unfold max_int32; simpl; lia|].
  intros id [x Hx]. simpl in Hx. rewrite lookup_empty in Hx. discriminate.
Qed.

Lemma Serve_only_reads_witness :
  let st := outstanding willing [wire_reply] in
  let st' := (Serve willing context_Background st).1 in
  let more := [Sink_Pour 0%nat (Some rxTimeout) (mkPacket FlagJSON 1 (text (JString "alice")))] in
  calls st' = calls st ++ more /\
  Forall (fun c => through_stream c = false) more /\
  packer.w (pkr (session st')) = packer.w (pkr (session st)) /\
  packer.closing (pkr (session st')) = packer.closing (pkr (session st)).
Proof.
  intros st st' more.
  destruct (Serve_only_reads willing context_Background st)
    as (_ & _ & _ & more' & Hcalls & Hquiet).
  assert (Hmore : more' = more).
  { apply (app_inv_head (calls st)). rewrite <- Hcalls. vm_compute. reflexivity. }
  subst more'.
  assert (Hnone : Forall (fun c => through_stream c = false) more).
  { repeat constructor. }
  destruct (Hquiet Hnone) as (Hw & Hcl & _).
  split_and!; [exact Hcalls | exact Hnone | exact Hw | exact Hcl].
Defined.

Lemma Serve_end_of_connection_witness :
  packer.r (pkr (session fresh)) = [] /\
  Serve willing context_Background fresh = (fresh, None).
Proof.
  split; [reflexivity|]. apply Serve_end_of_connection. reflexivity.
Defined.

Lemma Serve_read_failure_witness :
  let st := listening [inr connection_reset; wire_end] in
  packer.r (pkr (session st)) = inr connection_reset :: [wire_end] /\
  Cause connection_reset <> io_EOF /\ Cause connection_reset <> luigi_EOS /\
  packer.closing (pkr (session st)) = false /\
  terminated (session st) = false /\
  exists st',
    Serve willing context_Background st
      = (st', Some (errors_Wrapped (errors_Wrapped connection_reset "ReadPacket failed.")
                      "error reading from packer source")) /\
    packer.r (pkr (session st')) = [wire_end].
Proof.
  intros st.
  assert (H1 : Cause connection_reset <> io_EOF) by discriminate.
  assert (H2 : Cause connection_reset <> luigi_EOS) by discriminate.
  split_and!; try reflexivity; try assumption.
  destruct (Serve_read_failure willing context_Background st connection_reset [wire_end]
              eq_refl H1 H2 eq_refl eq_refl) as (st' & HS & Hr & _).
  exists st'. split; assumption.
Defined.

Lemma Terminate_makes_Serve_graceful_witness :
  let st := listening [inr connection_reset] in
  exists st',
    Terminate st None = Some (st', None) /\
    packer.r (pkr (session st)) = [inr connection_reset] /\
    terminated (session st') = true /\
    (Serve willing context_Background st').2 = None.
Proof.
  intros st.
  destruct (Terminate st None) as [[st' res]|] eqn:Ht; [|vm_compute in Ht; discriminate].
  destruct (Terminate_makes_Serve_graceful willing context_Background st None st' res
              connection_reset [] Ht eq_refl) as (-> & Hterm & _ & _ & _ & HS).
  exists st'. split_and!; try reflexivity; assumption.
Defined.

Lemma Terminate_twice_panics_witness :
  packer.closing (pkr (session fresh)) = false /\
  exists st', Terminate fresh None = Some (st', None) /\
              Terminate st' None = None.
Proof.
  split; [reflexivity|]. apply (Terminate_twice_panics fresh None None). reflexivity.
Defined.

Lemma fetchRequest_registers_once_witness :
  exists st1 req st2,
    reqs (session fresh) !! Req source_call = None /\
    ParseRequest willing fresh source_call = (st1, inl req) /\
    fetchRequest willing fresh source_call = (st2, inl (req, true)) /\
    calls st2 = calls fresh ++ [go_HandleCall req] /\
    fetchRequest willing st2 source_call = (st2, inl (req, false)).
Proof.
  destruct (ParseRequest willing fresh source_call) as [st1 [req|err]] eqn:Hp;
    [|vm_compute in Hp; discriminate].
  destruct (fetchRequest_registers_once willing fresh source_call st1 req eq_refl Hp)
    as (st2 & Hf & _ & Hc & _ & Hagain).
  exists st1, req, st2. split_and!; try reflexivity; assumption.
Defined.

Lemma fetchRequest_failure_changes_nothing_witness :
  let p := mkPacket FlagStream (-1) (envelope_body "source" ["log"%string]) in
  reqs (session fresh) !! Req p = None /\
  ParseRequest willing fresh p = (fresh, inr (errors_New "expected JSON flag")) /\
  fetchRequest willing fresh p
    = (fresh, inr (errors_Wrapped (errors_New "expected JSON flag") "error parsing request")).
Proof.
  intros p. split; [reflexivity|]. split; [reflexivity|].
  apply (fetchRequest_failure_changes_nothing willing fresh p fresh
           (errors_New "expected JSON flag")); reflexivity.
Defined.

Lemma Do_then_finish_restores_table_witness :
  reqs (session fresh) !! add32 (highest (session fresh)) 1 = None /\
  reqs (session (finish (Do willing fresh whoami).1.1 1).1) = reqs (session fresh) /\
  highest (session (finish (Do willing fresh whoami).1.1 1).1) = 1.
Proof.
  split; [reflexivity|].
  apply (Do_then_finish_restores_table willing fresh whoami). reflexivity.
Defined.

Lemma Do_takes_a_free_id_witness :
  ids_below_counter (session fresh) /\
  highest (session fresh) < max_int32 /\
  reqs (session fresh) !! 1 = None /\
  is_Some (reqs (session (Do willing fresh whoami).1.1) !! 1) /\
  ids_below_counter (session (Do willing fresh whoami).1.1).
Proof.
  assert (H1 : ids_below_counter (session fresh)) by apply ids_below_counter_Handle.
  assert (H2 : highest (session fresh) < max_int32) by reflexivity.
  destruct (Do_takes_a_free_id willing fresh whoami H1 H2) as (Hfree & Hin & _ & Hinv).
  split_and!; assumption.
Defined.

Lemma Serve_keeps_ids_below_counter_witness :
  let st := listening [inl wire_source_call; wire_end] in
  ids_below_counter (session st) /\
  ids_below_counter (session (Serve willing context_Background st).1).
Proof.
  intros st.
  assert (H1 : ids_below_counter (session st)) by apply ids_below_counter_Handle.
  split; [exact H1|]. apply Serve_keeps_ids_below_counter. exact H1.
Defined.

Lemma Serve_registers_new_call_witness :
  let st := listening [inl wire_source_call] in
  let st1 := (serve_read st).1 in
  exists st2 req st3,
    serve_read st = (st1, inl source_call) /\
    reqs (session st1) !! Req source_call = None /\
    ParseRequest willing st1 source_call = (st2, inl req) /\
    Serve willing context_Background st = Serve willing context_Background st3 /\
    reqs (session st3) = <[-1 := req]> (reqs (session st1)) /\
    calls st3 = calls st1 ++ [go_HandleCall req].
Proof.
  intros st st1.
  assert (Hread : serve_read st = (st1, inl source_call)) by (vm_compute; reflexivity).
  destruct (ParseRequest willing st1 source_call) as [st2 [req|err]] eqn:Hp;
    [|vm_compute in Hp; discriminate].
  destruct (Serve_registers_new_call willing context_Background st st1 source_call st2 req
              Hread eq_refl Hp) as (st3 & HS & Htab & Hc & _).
  exists st2, req, st3. split_and!; try reflexivity; assumption.
Defined.

Lemma Serve_unparsable_first_packet_is_fatal_witness :
  let st := listening [wire_end] in
  let st1 := (serve_read st).1 in
  let p := newEndOkayPacket 1 in
  let err := errors_New "expected negative request id" in
  serve_read st = (st1, inl p) /\
  reqs (session st1) !! Req p = None /\
  ParseRequest willing st1 p = (st1, inr err) /\
  Serve willing context_Background st
    = (st1, Some (errors_Wrapped (errors_Wrapped err "error parsing request")
                    "error getting request")).
Proof.
  intros st st1 p err.
  assert (Hread : serve_read st = (st1, inl p)) by (vm_compute; reflexivity).
  assert (Hp : ParseRequest willing st1 p = (st1, inr err)) by reflexivity.
  split; [exact Hread|]. split; [reflexivity|]. split; [exact Hp|].
  apply (Serve_unparsable_first_packet_is_fatal willing context_Background st st1 p st1 err
           Hread eq_refl Hp).
Defined.

Lemma Next_twice_restores_witness :
  let p := mkPacket FlagJSON 7 (list_byte_of_string "true") in
  in_int32 (Req p) /\
  exists q,
    (packer.Next (packer.mk [inl p] (mkWriter [] []) false 0)).2 = inl q /\
    (packer.Next (packer.mk [inl q] (mkWriter [] []) false 0)).2 = inl p.
Proof.
  intros p.
  assert (H : in_int32 (Req p)) by (vm_compute; split; discriminate).
  split; [exact H|].
  apply (Next_twice_restores p (mkWriter [] []) (mkWriter [] []) false false 0 0 H).
Defined.

Lemma Close_silences_transport_witness :
  let pkr := packer.NewPacker [inr connection_reset] (mkWriter [Some connection_reset] []) in
  exists pkr',
    packer.Close pkr None = Some (pkr', None) /\
    (forall p, (packer.Pour pkr' (packer.VPacket p)).2 = None) /\
    (forall conn', packer.Close pkr' conn' = None).
Proof.
  intros pkr.
  destruct (packer.Close pkr None) as [[pkr' res]|] eqn:Hc; [|vm_compute in Hc; discriminate].
  destruct (Close_silences_transport pkr pkr' None res Hc) as (-> & Hpour & _ & _ & Hagain).
  exists pkr'. split_and!; [reflexivity | exact Hpour | exact Hagain].
Defined.

Lemma Do_writes_one_packet_witness :
  let st := Handle (packer.NewPacker [] (mkWriter [Some connection_reset] [])) in
  let body := envelope_body "async" ["whoami"%string] in
  json_Marshal willing (fill_Args whoami) = inl body /\
  written (packer.w (pkr (session (Do willing st whoami).1.1)))
    = [call_packet willing whoami 1] /\
  (Do willing st whoami).2 = Some connection_reset.
Proof.
  intros st body.
  assert (Hm : json_Marshal willing (fill_Args whoami) = inl body) by (vm_compute; reflexivity).
  split; [exact Hm|].
  destruct (Do_writes_one_packet willing st whoami body Hm) as (_ & _ & Hw & Hr & _).
  split; [exact Hw | exact Hr].
Defined.

Lemma callee_mirrors_caller_witness :
  let req := call_request "source" true false 0%nat None ["log"%string] None in
  let body := envelope_body "source" ["log"%string] in
  ("source"%string, true, false) ∈ call_shapes /\
  json_Marshal willing (fill_Args req) = inl body /\
  json_Unmarshal_Request willing body
    = inl (mkEnvelope "source" ["log"%string] (Args (fill_Args req))) /\
  0 < add32 (highest (session fresh)) 1 /\
  st_inStream (Stream_ (Do willing fresh req).1.2) = true /\
  st_outStream (Stream_ (Do willing fresh req).1.2) = false /\
  exists got peer' req',
    (packer.Next (packer.NewPacker [inl (call_packet willing req 1)] (mkWriter [] []))).2
      = inl got /\
    ParseRequest willing fresh got = (peer', inl req') /\
    st_req (Stream_ req') = -1 /\
    st_inStream (Stream_ req') = false /\ st_outStream (Stream_ req') = true.
Proof.
  intros req body.
  assert (Hs : ("source"%string, true, false) ∈ call_shapes).
  { unfold call_shapes. apply elem_of_cons. right. apply elem_of_cons. left. reflexivity. }
  assert (Hm : json_Marshal willing (fill_Args req) = inl body) by (vm_compute; reflexivity).
  assert (Hu : json_Unmarshal_Request willing body
               = inl (mkEnvelope "source" ["log"%string] (Args (fill_Args req))))
    by (vm_compute; reflexivity).
  assert (Hpos : 0 < add32 (highest (session fresh)) 1) by reflexivity.
  split_and!; try assumption.
  all: destruct (callee_mirrors_caller willing fresh fresh (mkWriter [] [])
                   "source" true false 0%nat None ["log"%string] None body Hs Hm Hu Hpos)
         as (_ & Hin & Hout & got & peer' & req' & Hn & _ & Hp & _ & _ & _ & Hid & Hi & Ho).
  - exact Hin.
  - exact Hout.
  - exists got, peer', req'. split_and!; assumption.
Defined.

Lemma Do_never_deadlocks_witness :
  let c := Interleaving.run willing [0; 1]%nat
             (Interleaving.start (session fresh) [whoami; whoami]) in
  Interleaving.c_rLock c = true /\
  (exists k t, Interleaving.c_threads c !! k = Some t /\
               Interleaving.t_pc t = Interleaving.AtLock) /\
  exists i c', Interleaving.step willing i c = Some c'.
Proof.
  intros c. split; [reflexivity|].
  split; [exists 1%nat; eexists; split; reflexivity|].
  apply (Do_never_deadlocks willing (session fresh) [whoami; whoami] [0; 1]%nat).
  exists 1%nat. eexists. split; [reflexivity|]. discriminate.
Defined.

(** ** Pipes of inbound calls, and the order of delivery *)

Section Delivery.

Variable X : Collaborators.

(** X21. [ParseRequest] creates its pipe only after the envelope has
    decoded. A packet rejected for its flags, its id or its body leaves
    the count of pipes as it was; a packet that decodes creates exactly
    one pipe, also when it is then rejected for its type; and on success
    the request's pipe handle and the source of its Stream are the two
    ends of that new pipe. *)
Theorem ParseRequest_pipes st p :
  match ParseRequest X st p with
  | (st', inl req) =>
      pipes st' = S (pipes st) /\ in_ req = pipes st /\ st_src (Stream_ req) = pipes st
  | (st', inr _) =>
      match json_Unmarshal_Request X (Body p) with
      | inl _ =>
          if Flag_Get (Flag_ p) FlagJSON && (Req p <? 0)
          then pipes st' = S (pipes st)
          else st' = st
      | inr _ => st' = st
      end
  end.
Proof.
  unfold ParseRequest, luigi_NewPipe.
  destruct (Flag_Get (Flag_ p) FlagJSON); simpl;
    [|destruct (json_Unmarshal_Request X (Body p)); reflexivity].
  destruct (Z.geb_spec (Req p) 0) as [Hge|Hlt].
  - destruct (Z.ltb_spec (Req p) 0); [lia|].
    destruct (json_Unmarshal_Request X (Body p)); reflexivity.
  - destruct (Z.ltb_spec (Req p) 0); [|lia].
    destruct (json_Unmarshal_Request X (Body p)) as [env|e]; [|reflexivity].
    repeat case_match; simplify_eq; simpl; auto.
Qed.

Lemma Serve_delivers_in_order_from ctx (req : Request) (id : Z) (wires : list Packet) :
  (forall log c, answer X log c = None) ->
  Forall (fun wire => Flag_Get (Flag_ wire) FlagEndErr = false /\ neg32 (Req wire) = id)
         wires ->
  forall st,
    packer.r (pkr (session st)) = inl <$> wires ->
    reqs (session st) !! id = Some req ->
    (Serve X ctx st).2 = None /\
    calls (Serve X ctx st).1
      = calls st ++ ((fun wire => Sink_Pour (in_ req) (context_WithTimeout ctx rxTimeout)
                                    (flipped wire)) <$> wires) /\
    reqs (session (Serve X ctx st).1) = reqs (session st).
Proof.
  intros Hyes Hall. induction Hall as [|wire rest [Hflag Hid] _ IH]; intros st Hr Hreq.
  - rewrite (Serve_end_of_connection X ctx st Hr). simpl. rewrite app_nil_r. auto.
  - simpl in Hr.
    pose proof (serve_read_packet st wire (inl <$> rest) Hr) as Hread.
    fold (flipped wire) in Hread.
    rewrite (Serve_packet X ctx st _ _ Hread).
    unfold serve_packet, serve_deliver, fetchRequest, ask. cbn [Flag_ Req flipped].
    rewrite Hflag. cbn [session with_session reqs with_pkr calls]. rewrite Hid, Hreq.
    rewrite Hyes. cbn [errors_Wrap].
    match goal with |- context [Serve X ctx ?s] => specialize (IH s) end.
    destruct IH as (Hnil & Hcalls & Htab); [reflexivity | exact Hreq |].
    split; [exact Hnil|]. split; [|exact Htab].
    rewrite Hcalls. simpl. rewrite <- app_assoc. reflexivity.
Qed.

(** X22. Packets for one known call are delivered in the order of their
    arrival. If the pipes accept every pour, a connection that holds only
    packets without the EndErr flag for an id in the table is read to its
    end: [Serve] pours each packet, with its id flipped, into that
    request's pipe, one after the other in wire order and each under the
    one-millisecond context, leaves the table as it was, and returns
    nil. *)
Theorem Serve_delivers_in_order ctx st (req : Request) (id : Z) (wires : list Packet) :
  (forall log c, answer X log c = None) ->
  Forall (fun wire => Flag_Get (Flag_ wire) FlagEndErr = false /\ neg32 (Req wire) = id)
         wires ->
  packer.r (pkr (session st)) = inl <$> wires ->
  reqs (session st) !! id = Some req ->
  (Serve X ctx st).2 = None /\
  calls (Serve X ctx st).1
    = calls st ++ ((fun wire => Sink_Pour (in_ req) (context_WithTimeout ctx rxTimeout)
                                  (flipped wire)) <$> wires) /\
  reqs (session (Serve X ctx st).1) = reqs (session st).
Proof.
  intros Hyes Hall Hr Hreq.
  apply (Serve_delivers_in_order_from ctx req id wires Hyes Hall st Hr Hreq).
Qed.

End Delivery.

Lemma Serve_delivers_in_order_witness :
  let first := mkPacket FlagJSON (-1) (text (JString "alice")) in
  let second := mkPacket FlagJSON (-1) (text (JString "bob")) in
  let st := outstanding willing [inl first; inl second] in
  exists req,
    (forall log c, answer willing log c = None) /\
    Forall (fun wire => Flag_Get (Flag_ wire) FlagEndErr = false /\ neg32 (Req wire) = 1)
           [first; second] /\
    packer.r (pkr (session st)) = inl <$> [first; second] /\
    reqs (session st) !! 1 = Some req /\
    (Serve willing context_Background st).2 = None /\
    calls (Serve willing context_Background st).1
      = calls st ++ [Sink_Pour (in_ req) (Some rxTimeout) (flipped first);
                     Sink_Pour (in_ req) (Some rxTimeout) (flipped second)].
Proof.
  intros first second st.
  destruct (reqs (session st) !! 1) as [req|] eqn:Hreq; [|vm_compute in Hreq; discriminate].
  exists req.
  assert (Hyes : forall log c, answer willing log c = None) by reflexivity.
  assert (Hall : Forall (fun wire => Flag_Get (Flag_ wire) FlagEndErr = false /\
                                     neg32 (Req wire) = 1) [first; second]).
  { repeat constructor. }
  assert (Hr : packer.r (pkr (session st)) = inl <$> [first; second]) by reflexivity.
  destruct (Serve_delivers_in_order willing context_Background st req 1 [first; second]
              Hyes Hall Hr Hreq) as (Hnil & Hcalls & _).
  split_and!; try assumption; reflexivity.
Defined.
